(** * rx-player: text buffer manager, segment indexes, native text track buffer

    A shallow embedding of three source files of the player and the
    properties of them that the specification states.

    - [TextBuffer]: the [TextBufferManager] class (cue groups keyed by time
      range, tolerance-based replacement).
    - [IndexResolver], [TemplateIndex], [BaseIndex]: the lookup of the index
      helpers, [getSegments] of the template index and [_addSegmentInfos] of
      the base index.
    - [NativeTextTrack]: [NativeTextTrackSourceBuffer._append] and [_remove].

    The embeddings come first, the facts about them after.

    JavaScript numbers are modelled by the rationals [Q]: every finite
    double is a rational and the comparisons [<], [<=], [>] agree on them.
    Arithmetic ([-], [/], [*], [Math.floor]) is exact in the model; rounding,
    NaN and the infinities are outside it, except where the source writes
    [+Infinity] or relies on [undefined], which are modelled explicitly. *)

From Stdlib Require Import QArith Qabs Qround Lqa ZArith DecimalString.
From stdpp Require Import gmap strings list pretty.

#[global] Instance Qlt_decision : RelDecision Qlt := λ a b,
  match Qlt_le_dec a b with
  | left H => left H
  | right H => right (Qle_not_lt _ _ H)
  end.

#[global] Instance Qle_decision : RelDecision Qle := λ a b,
  match Qlt_le_dec b a with
  | left H => right (Qlt_not_le _ _ H)
  | right H => left H
  end.

#[global] Instance Qeq_decision : RelDecision Qeq := Qeq_dec.

(** ** JavaScript arrays

    [Array.prototype.splice(start, deleteCount, ...items)] for
    [start <= length], and the assignment [a[i] = x], which overwrites in
    range and appends when [i] is the length (every assignment of the
    embedded code has [i <= length], so no hole is ever created). *)

Definition splice {A} (i del : nat) (items l : list A) : list A :=
  take i l ++ items ++ drop (i + del) l.

Definition array_set {A} (i : nat) (x : A) (l : list A) : list A :=
  if decide (i < length l)%nat then <[i := x]> l else l ++ [x].

(** ** The text buffer manager (src/unnamed/part_000) *)

Module Cue.
(** A cue object [{start, end, element}].  The code never mutates a cue,
    so a cue object is represented by its address together with its
    fields; [element] is the handle of the HTML element. *)
Record t := mk { addr : nat; start : Q; end_ : Q; element : nat }.
End Cue.

Module CuesInfos.
(** A group [{start, end, cues}]; [cues] is a reference to the caller's
    array, which the trimming helpers mutate in place. *)
Record t := mk { start : Q; end_ : Q; cues : nat }.

Definition set_start (v : Q) (g : t) : t := mk v (end_ g) (cues g).
Definition set_end (v : Q) (g : t) : t := mk (start g) v (cues g).
End CuesInfos.

Module TextBuffer.

Open Scope Q_scope.

(** The arrays of cues live in a store, addressed by reference, because
    the manager keeps the caller's array and splices it in place. *)
Abbreviation Arrays := (gmap nat (list Cue.t)).

Definition array_at (h : Arrays) (r : nat) : list Cue.t := default [] (h !! r).

(** A manager: its [_cuesBuffer], together with the arrays of cues the
    groups refer to. *)
Record TextBufferManager := mk {
  arrays : Arrays;
  _cuesBuffer : list CuesInfos.t;
}.

(** [new TextBufferManager()] over the arrays that exist. *)
Definition new (h : Arrays) : TextBufferManager := mk h [].

Definition MAX_DELTA_BUFFER_TIME : Q := 0.2.

Definition areNearlyEqual (a b : Q) : bool :=
  bool_decide (Qabs (a - b) <= MAX_DELTA_BUFFER_TIME).

Fixpoint getCueInCues (currentTime : Q) (cues : list Cue.t) : option Cue.t :=
  match cues with
  | [] => None
  | cue :: rest =>
      if decide (currentTime < Cue.end_ cue) then
        if decide (Cue.start cue <= currentTime) then Some cue else None
      else getCueInCues currentTime rest
  end.

(** [removeInCuesAfter]: at the first index [i] with [time > cues[i].start],
    [cues.splice(i, cues.length - i)]. *)
Definition removeInCuesAfter (cues : list Cue.t) (time : Q) : list Cue.t :=
  match list_find (λ cue, Cue.start cue < time) cues with
  | Some (i, _) => splice i (length cues - i) [] cues
  | None => cues
  end.

(** [removeInCuesBefore]: [i] runs from [cues.length - 1] down to [0]; at
    the first [i] met with [time > cues[i].start], [cues.splice(0, i)].
    [n] is [i + 1]. *)
Fixpoint removeInCuesBefore_from (n : nat) (cues : list Cue.t) (time : Q)
  : list Cue.t :=
  match n with
  | O => cues
  | S i =>
      match cues !! i with
      | Some cue =>
          if decide (Cue.start cue < time) then splice 0 i [] cues
          else removeInCuesBefore_from i cues time
      | None => removeInCuesBefore_from i cues time
      end
  end.

Definition removeInCuesBefore (cues : list Cue.t) (time : Q) : list Cue.t :=
  removeInCuesBefore_from (length cues) cues time.

(** What a call site hands to a trimming helper: the array [g.cues], or,
    at line 205, the group object itself. *)
Inductive TrimTarget :=
| CuesOf (g : CuesInfos.t)
| GroupItself (g : CuesInfos.t).

(** The helper applied to the store.  A group object has no [length]:
    [cues.length - 1] is [NaN], [NaN >= 0] is false and the loop body
    never runs. *)
Definition call_removeInCuesBefore (h : Arrays) (target : TrimTarget) (time : Q)
  : Arrays :=
  match target with
  | CuesOf g =>
      <[CuesInfos.cues g := removeInCuesBefore (array_at h (CuesInfos.cues g)) time]> h
  | GroupItself _ => h
  end.

Definition call_removeInCuesAfter (h : Arrays) (g : CuesInfos.t) (time : Q)
  : Arrays :=
  <[CuesInfos.cues g := removeInCuesAfter (array_at h (CuesInfos.cues g)) time]> h.

(** [get(time)]: the first group with [time < end] decides. *)
Definition get (this : TextBufferManager) (time : Q) : option Cue.t :=
  match list_find (λ g, time < CuesInfos.end_ g) (_cuesBuffer this) with
  | Some (_, cuesInfos) =>
      if decide (CuesInfos.start cuesInfos <= time)
      then getCueInCues time (array_at (arrays this) (CuesInfos.cues cuesInfos))
      else None
  | None => None
  end.

(** The [do { splice(i, 1); cuesInfos = cuesBuffer[i] } while (cuesInfos &&
    end > cuesInfos.end)] loop.  [n] bounds the iterations left after the
    first one; it is called with the number of groups behind index [i].
    Each iteration deletes one of them, so the [O] branch is never reached
    with a group left to delete ([dropCovered_split] below). *)
Fixpoint dropCovered (n i : nat) (end_ : Q) (cuesBuffer : list CuesInfos.t)
  : list CuesInfos.t :=
  let cuesBuffer := splice i 1 [] cuesBuffer in
  match cuesBuffer !! i with
  | Some cuesInfos =>
      if decide (CuesInfos.end_ cuesInfos < end_) then
        match n with
        | S n' => dropCovered n' i end_ cuesBuffer
        | O => cuesBuffer
        end
      else cuesBuffer
  | None => cuesBuffer
  end.

(** [insert(cues, start, end)].  [cues] is the reference of the array. *)
Definition insert (this : TextBufferManager) (cues : nat) (start end_ : Q)
  : TextBufferManager :=
  let h := arrays this in
  let cuesBuffer := _cuesBuffer this in
  let cuesInfosToInsert := CuesInfos.mk start end_ cues in
  match list_find (λ g, start < CuesInfos.end_ g) cuesBuffer with
  | None => mk h (cuesBuffer ++ [cuesInfosToInsert])
  | Some (i, cuesInfos) =>
      if areNearlyEqual start (CuesInfos.start cuesInfos) then
        if areNearlyEqual end_ (CuesInfos.end_ cuesInfos) then
          mk h (array_set i cuesInfosToInsert cuesBuffer)
        else if decide (end_ < CuesInfos.end_ cuesInfos) then
          let h := call_removeInCuesBefore h (GroupItself cuesInfos) end_ in
          let cuesBuffer := <[i := CuesInfos.set_start end_ cuesInfos]> cuesBuffer in
          mk h (splice i 0 [cuesInfosToInsert] cuesBuffer)
        else
          let cuesBuffer := dropCovered (length cuesBuffer - S i) i end_ cuesBuffer in
          match cuesBuffer !! i with
          | None => mk h (array_set i cuesInfosToInsert cuesBuffer)
          | Some cuesInfos =>
              if areNearlyEqual end_ (CuesInfos.end_ cuesInfos) then
                mk h (array_set i cuesInfosToInsert cuesBuffer)
              else
                let h := call_removeInCuesBefore h (CuesOf cuesInfos) end_ in
                let cuesBuffer :=
                  <[i := CuesInfos.set_start end_ cuesInfos]> cuesBuffer in
                mk h (splice i 0 [cuesInfosToInsert] cuesBuffer)
          end
      else if decide (start < CuesInfos.start cuesInfos) then
        if decide (end_ < CuesInfos.start cuesInfos) then
          mk h (splice i 0 [cuesInfosToInsert] cuesBuffer)
        else if areNearlyEqual end_ (CuesInfos.start cuesInfos) then
          let cuesBuffer := <[i := CuesInfos.set_start end_ cuesInfos]> cuesBuffer in
          mk h (splice i 0 [cuesInfosToInsert] cuesBuffer)
        else
          let h := call_removeInCuesBefore h (CuesOf cuesInfos) end_ in
          let cuesBuffer := <[i := CuesInfos.set_start end_ cuesInfos]> cuesBuffer in
          mk h (splice i 0 [cuesInfosToInsert] cuesBuffer)
      else
        if bool_decide (CuesInfos.end_ cuesInfos < end_)
           || areNearlyEqual end_ (CuesInfos.end_ cuesInfos) then
          let h := call_removeInCuesAfter h cuesInfos start in
          let cuesBuffer := <[i := CuesInfos.set_end start cuesInfos]> cuesBuffer in
          mk h (splice (i + 1) 0 [cuesInfosToInsert] cuesBuffer)
        else
          mk h (array_set i cuesInfosToInsert cuesBuffer)
  end.

End TextBuffer.

(** ** Orderings of timed objects, and runs of [insert] calls *)

Module TextBufferSpec.
Import TextBuffer.
Open Scope Q_scope.

Section intervals.
Context {A : Type} (lo hi : A → Q).

(** Ascending by start. *)
Definition sorted_by_start (l : list A) : Prop :=
  ∀ i a b, l !! i = Some a → l !! S i = Some b → lo a <= lo b.

(** Each one ends where its successor starts, or before. *)
Definition non_overlapping (l : list A) : Prop :=
  ∀ i a b, l !! i = Some a → l !! S i = Some b → hi a <= lo b.

Definition ordering_invariant (l : list A) : Prop :=
  sorted_by_start l ∧ non_overlapping l.

(** The strong form kept along a run: every object is well formed and ends
    before everything behind it starts. *)
Fixpoint ordered (l : list A) : Prop :=
  match l with
  | [] => True
  | a :: rest => lo a <= hi a ∧ Forall (λ b, hi a <= lo b) rest ∧ ordered rest
  end.

Definition covers (a : A) (time : Q) : Prop := lo a <= time ∧ time < hi a.

End intervals.

Abbreviation groups_ordered := (ordered CuesInfos.start CuesInfos.end_).
Abbreviation cue_covers := (covers Cue.start Cue.end_).
Abbreviation group_covers := (covers CuesInfos.start CuesInfos.end_).

Definition groups_ordering_invariant : list CuesInfos.t → Prop :=
  ordering_invariant CuesInfos.start CuesInfos.end_.

Definition cues_ordering_invariant : list Cue.t → Prop :=
  ordering_invariant Cue.start Cue.end_.

(** The ordering invariant of a manager: on its groups, and on the cues of
    each group. *)
Definition store_ordering_invariant (this : TextBufferManager) : Prop :=
  groups_ordering_invariant (_cuesBuffer this) ∧
  ∀ g, g ∈ _cuesBuffer this →
       cues_ordering_invariant (array_at (arrays this) (CuesInfos.cues g)).

(** One call [insert(cues, start, end)]. *)
Record InsertCall := Call { call_cues : nat; call_start : Q; call_end : Q }.

Definition apply_call (this : TextBufferManager) (c : InsertCall)
  : TextBufferManager :=
  insert this (call_cues c) (call_start c) (call_end c).

Definition run (this : TextBufferManager) (calls : list InsertCall)
  : TextBufferManager :=
  foldl apply_call this calls.

(** A call keeps within what [insert] resolves when, [g] being the first
    group with [start < g.end] (if there is one), the new range
    - ends no later than [g] ends, or
    - starts nearly equal to [g.start] and ends not nearly equal to [g.end]
      (the groups it covers are then deleted), or
    - starts no more than the tolerance before [g.start] and ends no later
      than the start of the group behind [g], if there is one. *)
Definition within_resolved (cuesBuffer : list CuesInfos.t) (start end_ : Q)
  : Prop :=
  match list_find (λ g, start < CuesInfos.end_ g) cuesBuffer with
  | None => True
  | Some (i, g) =>
      end_ <= CuesInfos.end_ g
      ∨ (areNearlyEqual start (CuesInfos.start g) = true
         ∧ areNearlyEqual end_ (CuesInfos.end_ g) = false)
      ∨ (CuesInfos.start g - MAX_DELTA_BUFFER_TIME <= start
         ∧ match cuesBuffer !! S i with
           | Some next => end_ <= CuesInfos.start next
           | None => True
           end)
  end.

(** Every call of a run has [start < end] and keeps within what [insert]
    resolves, on the buffer it is applied to. *)
Fixpoint run_within_resolved (this : TextBufferManager) (calls : list InsertCall)
  : Prop :=
  match calls with
  | [] => True
  | c :: rest =>
      call_start c < call_end c
      ∧ within_resolved (_cuesBuffer this) (call_start c) (call_end c)
      ∧ run_within_resolved (apply_call this c) rest
  end.

(** The groups the [do ... while] loop of [insert] deletes behind the first
    one are a prefix of what follows it; this is what is left. *)
Fixpoint skipCovered (end_ : Q) (post : list CuesInfos.t) : list CuesInfos.t :=
  match post with
  | [] => []
  | g :: rest =>
      if decide (CuesInfos.end_ g < end_) then skipCovered end_ rest else post
  end.

(** What stands in the buffer from the index of the first group [g] with
    [start < g.end] onwards, after the call; [post] is what followed [g]. *)
Definition resolved (new g : CuesInfos.t) (post : list CuesInfos.t)
  : list CuesInfos.t :=
  let start := CuesInfos.start new in
  let end_ := CuesInfos.end_ new in
  if areNearlyEqual start (CuesInfos.start g) then
    if areNearlyEqual end_ (CuesInfos.end_ g) then new :: post
    else if decide (end_ < CuesInfos.end_ g) then
      new :: CuesInfos.set_start end_ g :: post
    else
      match skipCovered end_ post with
      | [] => [new]
      | g' :: post' =>
          if areNearlyEqual end_ (CuesInfos.end_ g') then new :: post'
          else new :: CuesInfos.set_start end_ g' :: post'
      end
  else if decide (start < CuesInfos.start g) then
    if decide (end_ < CuesInfos.start g) then new :: g :: post
    else new :: CuesInfos.set_start end_ g :: post
  else if bool_decide (CuesInfos.end_ g < end_)
          || areNearlyEqual end_ (CuesInfos.end_ g) then
    CuesInfos.set_end start g :: new :: post
  else new :: post.

#[global] Instance within_resolved_dec cuesBuffer start end_ :
  Decision (within_resolved cuesBuffer start end_).
Proof.
  unfold within_resolved.
  destruct (list_find _ cuesBuffer) as [[i g]|]; [|apply _].
  destruct (cuesBuffer !! S i); apply _.
Defined.

#[global] Instance run_within_resolved_dec this calls :
  Decision (run_within_resolved this calls).
Proof.
  revert this. induction calls as [|c calls IH]; intros this; simpl; apply _.
Defined.

(** The non-overlap invariant as the specification words it: after any
    sequence of calls with [start < end] on an empty manager. *)
Definition non_overlap_as_specified : Prop :=
  ∀ (h : Arrays) (calls : list InsertCall),
    Forall (λ c, call_start c < call_end c) calls →
    groups_ordering_invariant (_cuesBuffer (run (new h) calls)).

(** The tolerance snap as the specification words it: a group whose start
    and end are both nearly equal to the new ones is gone after the call,
    and the new group stands at its index. *)
Definition tolerance_snap_as_specified : Prop :=
  ∀ (this : TextBufferManager) (i : nat) (g : CuesInfos.t) (cues : nat)
    (start end_ : Q),
    _cuesBuffer this !! i = Some g →
    areNearlyEqual start (CuesInfos.start g) = true →
    areNearlyEqual end_ (CuesInfos.end_ g) = true →
    _cuesBuffer (insert this cues start end_) !! i
    = Some (CuesInfos.mk start end_ cues)
    ∧ (g ≠ CuesInfos.mk start end_ cues →
       g ∉ _cuesBuffer (insert this cues start end_)).

(** Three arrays of cues, at the references 1, 2 and 3. *)
Definition cue (addr : nat) (start end_ : Q) : Cue.t :=
  Cue.mk addr start end_ addr.

Definition example_arrays : Arrays :=
  {[ 1%nat := [cue 11 0 2; cue 12 2 4; cue 13 6 8];
     2%nat := [cue 21 10 15; cue 22 15 20];
     3%nat := [cue 31 0 5] ]}.

End TextBufferSpec.

(** ** Segment indexes (src/unnamed/part_001) *)

(** What a function call completes with: a returned value, or a thrown
    error of some kind. *)
Inductive Completion (A : Type) :=
| Return (value : A)
| Throw (kind : string).
Arguments Return {A} value.
Arguments Throw {A} kind.

Module IndexResolver.
Open Scope string_scope.

(** The build-time flags [__FEATURES__]. *)
Record Features := { SMOOTH : bool; DASH : bool }.

(** The helper modules that can be registered. *)
Inductive IndexHelpers := smooth | timeline | template | list_ | base.

(** What reading a property of the table can give. *)
Inductive JsValue :=
| Undefined
| Helpers (h : IndexHelpers)
| Inherited (property : string).

(** [const indexes = {}] and its conditional population. *)
Definition indexes (F : Features) : gmap string IndexHelpers :=
  let indexes : gmap string IndexHelpers := ∅ in
  let indexes :=
    if SMOOTH F then <["smooth" := smooth]> indexes else indexes in
  let indexes :=
    if DASH F then
      <["base" := base]> (<["list" := list_]> (<["template" := template]>
        (<["timeline" := timeline]> indexes)))
    else indexes in
  indexes.

(** [indexes] is an object literal: a property it does not own is looked
    up in [Object.prototype]. *)
Definition ObjectPrototype : list string :=
  ["constructor"; "hasOwnProperty"; "isPrototypeOf"; "propertyIsEnumerable";
   "toLocaleString"; "toString"; "valueOf"; "__proto__";
   "__defineGetter__"; "__defineSetter__"; "__lookupGetter__";
   "__lookupSetter__"].

Definition get_property (o : gmap string IndexHelpers) (key : string) : JsValue :=
  match o !! key with
  | Some h => Helpers h
  | None => if decide (key ∈ ObjectPrototype) then Inherited key else Undefined
  end.

Record Index := { indexType : string }.

Definition getRightIndexHelpers (F : Features) (index : Index)
  : Completion JsValue :=
  Return (get_property (indexes F) (indexType index)).

(** The tag of [index] has no registered variant. *)
Definition unregistered (F : Features) (index : Index) : Prop :=
  indexes F !! indexType index = None.

(** The lookup as the specification words it: on a tag with no registered
    variant it fails with an error. *)
Definition lookup_fails_as_specified : Prop :=
  ∀ (F : Features) (index : Index),
    unregistered F index → ∃ kind, getRightIndexHelpers F index = Throw kind.

End IndexResolver.

Module Segment.
(** The arguments [new Segment(args)] is built from. *)
Record t := mk {
  id : string;
  number : Z;
  time : Q;
  init : bool;
  duration : Q;
  range : option (Z * Z);
  indexRange : option (Z * Z);
  timescale : Q;
  media : string;
}.
End Segment.

Module TemplateIndex.
Open Scope Q_scope.

(** [startNumber] may be absent ([== null]); it is an integer. *)
Record Index := mkIndex {
  duration : Q;
  startNumber : option Z;
  timescale : Q;
  media : string;
}.

(** Modelled from the spec: [normalizeRange] of helpers.js, which is not
    among the sources.  The spec has it normalise the requested range
    against the bounds of the index, clamping to the valid range; a
    Template index has no bound, and the range is returned as asked. *)
Definition normalizeRange_spec (index : Index) (_up _to : Q) : Q * Q :=
  (_up, _to).

Section getSegments.
(** [normalizeRange(index, _up, _to)] giving [{up, to}] is imported from
    helpers.js. *)
Variable normalizeRange : Index → Q → Q → Q * Q.

Definition segment_at (repId : string) (index : Index) (time : Q) : Segment.t :=
  let number :=
    (Qfloor (time / duration index)
     + match startNumber index with None => 1 | Some n => n end)%Z in
  Segment.mk (repId +:+ "_" +:+ pretty number)
             number
             (inject_Z number * duration index)
             false
             (duration index)
             None
             None
             (timescale index)
             (media index).

(** [for (let time = up; time <= to; time += duration)]: [None] when the
    iterations allowed run out before the loop ends. *)
Fixpoint getSegments_loop (fuel : nat) (repId : string) (index : Index)
  (time to : Q) (segments : list Segment.t) : option (list Segment.t) :=
  if decide (time <= to) then
    match fuel with
    | O => None
    | S fuel =>
        getSegments_loop fuel repId index (time + duration index) to
                         (segments ++ [segment_at repId index time])
    end
  else Some segments.

Definition getSegments (fuel : nat) (repId : string) (index : Index) (_up _to : Q)
  : option (list Segment.t) :=
  let '(up, to) := normalizeRange index _up _to in
  getSegments_loop fuel repId index up to [].

End getSegments.

(** The index of scenario 4. *)
Definition scenario_index : Index :=
  mkIndex 4 (Some 1%Z) 1 "seg-$Number$".

(** What the code gives in scenario 4. *)
Definition template_segment (id : string) (number : Z) (time : Q) : Segment.t :=
  Segment.mk id number time false 4 None None 1 "seg-$Number$".

Definition template_segments : list Segment.t :=
  [template_segment "rep1_1" 1 4; template_segment "rep1_2" 2 8;
   template_segment "rep1_3" 3 12].

(** The claim of scenario 4 as the specification words it: three segments,
    numbered 1, 2, 3, with times 0, 4, 8. *)
Definition scenario_as_specified (normalizeRange : Index → Q → Q → Q * Q) : Prop :=
  ∃ fuel segments,
    getSegments normalizeRange fuel "rep1" scenario_index 0 10 = Some segments
    ∧ Segment.number <$> segments = [1; 2; 3]%Z
    ∧ Forall2 Qeq (Segment.time <$> segments) [0; 4; 8].

End TemplateIndex.

Module TimelineElement.
Record t := mk { ts : Q; d : Q; r : Z; range : option (Z * Z) }.
End TimelineElement.

Module SegmentInfos.
Record t := mk {
  time : Q;
  duration : Q;
  timescale : Q;
  count : Z;
  range : option (Z * Z);
}.
End SegmentInfos.

Module BaseIndex.
Open Scope Q_scope.

Record Index := mkIndex {
  timescale : Q;
  timeline : list TimelineElement.t;
}.

(** [_addSegmentInfos(index, segmentInfos)]: the index after the push, and
    the value returned. *)
Definition _addSegmentInfos (index : Index) (segmentInfos : SegmentInfos.t)
  : Index * bool :=
  if decide (¬ SegmentInfos.timescale segmentInfos == timescale index) then
    let timescale := timescale index in
    (mkIndex timescale
       (timeline index ++
        [TimelineElement.mk
           ((SegmentInfos.time segmentInfos / SegmentInfos.timescale segmentInfos)
            * timescale)
           ((SegmentInfos.duration segmentInfos / SegmentInfos.timescale segmentInfos)
            * timescale)
           (SegmentInfos.count segmentInfos)
           (SegmentInfos.range segmentInfos)]),
     true)
  else
    (mkIndex (timescale index)
       (timeline index ++
        [TimelineElement.mk (SegmentInfos.time segmentInfos)
                            (SegmentInfos.duration segmentInfos)
                            (SegmentInfos.count segmentInfos)
                            (SegmentInfos.range segmentInfos)]),
     true).

(** The index and the metadata of scenario 5. *)
Definition scenario_index : Index := mkIndex 1 [].

Definition scenario_infos : SegmentInfos.t := SegmentInfos.mk 0 4 2 0 None.

End BaseIndex.

(** ** The native text track source buffer
    (src/core/stream/source_buffers/text/native/index.js) *)

Module TextTrackCue.
(** A cue of the platform, with the address of the object. *)
Record t := mk { addr : nat; startTime : Q; endTime : Q }.
End TextTrackCue.

Module AppendData.
(** The argument of [_append]; [end] may be [undefined]. *)
Record t := mk {
  timescale : Q;
  start : Q;
  end_ : option Q;
  data : string;
  type : string;
  language : string;
}.
End AppendData.

Module NativeTextTrack.
Open Scope Q_scope.

(** An upper bound that may be [+Infinity]. *)
Inductive Bound := Finite (q : Q) | PlusInfinity.

Definition le_bound (q : Q) (b : Bound) : bool :=
  match b with
  | Finite to => bool_decide (q <= to)
  | PlusInfinity => true
  end.

Section source_buffer.
(** The collaborators of the class, none of them among the sources: the
    ranges object [this.buffered] of [AbstractSourceBuffer] with its
    [insert] and [remove], the parser of parsers.js, and [addCue] /
    [removeCue] of the platform's text track. *)
Context {Ranges : Type}.
Variable buffered_insert : Ranges → Q → Q → Ranges.
Variable buffered_remove : Ranges → Q → Bound → Ranges.
Variable parseTextTrackToCues : string → string → string → list TextTrackCue.t.
Variable addCue : list TextTrackCue.t → TextTrackCue.t → list TextTrackCue.t.
Variable removeCue : list TextTrackCue.t → TextTrackCue.t → list TextTrackCue.t.

(** The state [_append] and [_remove] read and write: the cues of
    [this._track] and [this.buffered]. *)
Record State := mkState {
  track_cues : list TextTrackCue.t;
  buffered : Ranges;
}.

(** The loop of [_remove]: [i] runs from [cues.length - 1] down to [0] over
    the live list of the track; [n] is [i + 1]. *)
Fixpoint remove_from (n : nat) (cues : list TextTrackCue.t) (from : Q) (to : Bound)
  : list TextTrackCue.t :=
  match n with
  | O => cues
  | S i =>
      match cues !! i with
      | Some cue =>
          if bool_decide (from <= TextTrackCue.startTime cue)
             && le_bound (TextTrackCue.startTime cue) to
             && le_bound (TextTrackCue.endTime cue) to
          then remove_from i (removeCue cues cue) from to
          else remove_from i cues from to
      | None => remove_from i cues from to
      end
  end.

Definition _remove (this : State) (from : Q) (to : Bound) : State :=
  mkState (remove_from (length (track_cues this)) (track_cues this) from to)
          (buffered_remove (buffered this) from to).

(** [timescaledEnd - timescaledStart <= 0]; with [end] undefined the
    difference is [NaN] and the test is false. *)
Definition invalid_range (data : AppendData.t) : bool :=
  match AppendData.end_ data with
  | Some timescaledEnd => bool_decide (timescaledEnd - AppendData.start data <= 0)
  | None => false
  end.

(** [_append(data)]: the state afterwards and the warnings logged. *)
Definition _append (this : State) (data : AppendData.t) : State * list string :=
  if invalid_range data then
    (this, ["Invalid subtitles appended"%string])
  else
    let startTime := AppendData.start data / AppendData.timescale data in
    let endTime :=
      (λ timescaledEnd, timescaledEnd / AppendData.timescale data)
        <$> AppendData.end_ data in
    let cues :=
      parseTextTrackToCues (AppendData.type data) (AppendData.data data)
                           (AppendData.language data) in
    match cues with
    | firstCue :: _ =>
        let this :=
          match last (track_cues this) with
          | Some lastCue =>
              if decide (TextTrackCue.startTime firstCue
                         < TextTrackCue.startTime lastCue)
              then _remove this (TextTrackCue.startTime firstCue) PlusInfinity
              else this
          | None => this
          end in
        let track := foldl addCue (track_cues this) cues in
        let to :=
          match endTime with
          | Some endTime => endTime
          | None => from_option TextTrackCue.endTime 0 (last cues)
          end in
        (mkState track (buffered_insert (buffered this) startTime to), [])
    | [] =>
        match endTime with
        | Some endTime =>
            (mkState (track_cues this)
                     (buffered_insert (buffered this) startTime endTime), [])
        | None => (this, [])
        end
    end.

End source_buffer.

(** A stand-in for the collaborators: ranges as a list of pairs, a parser
    that finds one cue per call, a track that appends and filters. *)
Definition example_insert (b : list (Q * Q)) (from to : Q) : list (Q * Q) :=
  b ++ [(from, to)].

Definition example_remove (b : list (Q * Q)) (from : Q) (to : Bound)
  : list (Q * Q) :=
  filter (λ range, ¬ (from <= range.1 ∧ le_bound range.2 to = true)) b.

Definition example_parse (type data language : string) : list TextTrackCue.t :=
  [TextTrackCue.mk 1 0 2].

Definition example_addCue (cues : list TextTrackCue.t) (cue : TextTrackCue.t)
  : list TextTrackCue.t :=
  cues ++ [cue].

Definition example_removeCue (cues : list TextTrackCue.t) (cue : TextTrackCue.t)
  : list TextTrackCue.t :=
  filter (λ c, TextTrackCue.addr c ≠ TextTrackCue.addr cue) cues.

Definition example_append :=
  _append example_insert example_remove example_parse example_addCue
          example_removeCue.

End NativeTextTrack.

(** ** Further definitions

    Runs of calls that append, the other functions of the template and
    base helpers, and what the native buffer expects of the platform. *)

(** Solves a closed goal made of conjunctions, disjunctions and
    equations between equal terms. *)
Ltac pick_case :=
  first [ reflexivity | split; [pick_case | pick_case]
        | left; pick_case | right; pick_case ].

Module TextBufferRuns.
Import TextBuffer TextBufferSpec.
Open Scope Q_scope.

(** The group a call stores. *)
Definition group_of (c : InsertCall) : CuesInfos.t :=
  CuesInfos.mk (call_start c) (call_end c) (call_cues c).

(** The calls come in ascending order: each has [start < end] and starts
    at the end of the one before it or later, the first one at [bound] or
    later. *)
Fixpoint follow (bound : Q) (calls : list InsertCall) : Prop :=
  match calls with
  | [] => True
  | c :: rest =>
      bound <= call_start c ∧ call_start c < call_end c
      ∧ follow (call_end c) rest
  end.

#[global] Instance follow_dec bound calls : Decision (follow bound calls).
Proof. revert bound. induction calls; intros bound; simpl; apply _. Defined.

(** The relation [areNearlyEqual] would need to be an equivalence. *)
Definition nearly_transitive : Prop :=
  ∀ a b c, areNearlyEqual a b = true → areNearlyEqual b c = true →
           areNearlyEqual a c = true.

End TextBufferRuns.

Module TemplateIndexMore.
Import TemplateIndex.
Open Scope Q_scope.

(** The other helpers of the template module: none looks at its
    arguments.  [None] is [undefined]. *)
Definition getFirstPosition : option Q := None.
Definition getLastPosition : option Q := None.
Definition shouldRefresh : bool := false.
Definition checkDiscontinuity : Z := (-1)%Z.
Definition _addSegmentInfos (index : Index) : Index * bool := (index, false).

(** How often the body of the loop of [getSegments] runs, for a positive
    duration. *)
Definition rounds (index : Index) (up to : Q) : nat :=
  if decide (up <= to)
  then Z.to_nat (Qfloor ((to - up) / duration index) + 1)
  else O.

(** The number of the first segment of the loop. *)
Definition first_number (index : Index) (up : Q) : Z :=
  (Qfloor (up / duration index)
   + match startNumber index with None => 1 | Some n => n end)%Z.

(** What [n] rounds of the loop push, from [time] on. *)
Fixpoint segments_from (n : nat) (repId : string) (index : Index) (time : Q)
  : list Segment.t :=
  match n with
  | O => []
  | S n =>
      segment_at repId index time
      :: segments_from n repId index (time + duration index)
  end.

End TemplateIndexMore.

Module BaseIndexMore.
Import BaseIndex.

(** [shouldRefresh()] of the base helpers. *)
Definition shouldRefresh : bool := false.

(** Several calls of [_addSegmentInfos] in a row on the same index. *)
Definition addAll (index : Index) (infos : list SegmentInfos.t) : Index :=
  foldl (λ index segmentInfos, (_addSegmentInfos index segmentInfos).1) index infos.

End BaseIndexMore.

Module NativeTextTrackPlatform.
Import NativeTextTrack.
Open Scope Q_scope.

(** The test [_remove] applies to a cue. *)
Definition in_range (from : Q) (to : Bound) (cue : TextTrackCue.t) : bool :=
  bool_decide (from <= TextTrackCue.startTime cue)
  && le_bound (TextTrackCue.startTime cue) to
  && le_bound (TextTrackCue.endTime cue) to.

(** What [removeCue] of the platform does: the cue object handed over
    leaves the list, the others stay in place. *)
Definition removes_by_address
  (removeCue : list TextTrackCue.t → TextTrackCue.t → list TextTrackCue.t) : Prop :=
  ∀ cues cue,
    removeCue cues cue
    = filter (λ c, TextTrackCue.addr c ≠ TextTrackCue.addr cue) cues.

(** The cues of a track are distinct objects. *)
Definition distinct_cues (cues : list TextTrackCue.t) : Prop :=
  NoDup (TextTrackCue.addr <$> cues).

(** The first new cue starts before the last cue of the track. *)
Definition rewinds (cues : list TextTrackCue.t) (firstCue : TextTrackCue.t) : bool :=
  match last cues with
  | Some lastCue =>
      bool_decide (TextTrackCue.startTime firstCue < TextTrackCue.startTime lastCue)
  | None => false
  end.

End NativeTextTrackPlatform.

(** ** Facts about the text buffer manager *)

Module TextBufferFacts.
Import TextBuffer TextBufferSpec.
Open Scope Q_scope.

(** *** Arrays cut at the index found by a scan *)

Lemma find_split {A} (P : A → Prop) `{!∀ x, Decision (P x)} (l : list A) i x :
  list_find P l = Some (i, x) →
  ∃ pre post,
    l = pre ++ x :: post ∧ length pre = i ∧ Forall (λ y, ¬ P y) pre ∧ P x.
Proof.
  intros (Hi & HP & Hbefore)%list_find_Some.
  exists (take i l), (drop (S i) l).
  split; [by rewrite take_drop_middle|].
  split; [rewrite length_take; apply lookup_lt_Some in Hi; lia|].
  split; [|done].
  apply Forall_lookup_2; intros j y Hj.
  apply lookup_take_Some in Hj as [Hj Hlt]. by eapply Hbefore.
Qed.

Lemma find_at_split {A} (P : A → Prop) `{!∀ x, Decision (P x)} (pre post : list A) x :
  Forall (λ y, ¬ P y) pre → P x →
  list_find P (pre ++ x :: post) = Some (length pre, x).
Proof.
  intros Hpre HP. apply list_find_Some. split; [|split; [done|]].
  - by rewrite list_lookup_middle.
  - intros j y Hj Hlt. rewrite lookup_app_l in Hj by done.
    by eapply (proj1 (Forall_lookup _ _) Hpre).
Qed.

Section split_ops.
Context {A : Type}.
Implicit Types (pre post items : list A) (x y : A).

Lemma set_at_split pre post x y :
  <[length pre := y]> (pre ++ x :: post) = pre ++ y :: post.
Proof. by rewrite insert_app_r_alt, Nat.sub_diag by lia. Qed.

Lemma array_set_at_split pre post x y :
  array_set (length pre) y (pre ++ x :: post) = pre ++ y :: post.
Proof.
  unfold array_set. rewrite decide_True; [apply set_at_split|].
  rewrite length_app; simpl; lia.
Qed.

Lemma array_set_at_length pre y : array_set (length pre) y pre = pre ++ [y].
Proof. unfold array_set. by rewrite decide_False by lia. Qed.

Lemma splice_at_split pre post items :
  splice (length pre) 0 items (pre ++ post) = pre ++ items ++ post.
Proof.
  unfold splice. rewrite Nat.add_0_r, take_app_length, drop_app_length. done.
Qed.

Lemma splice_after_split pre post items x :
  splice (length pre + 1) 0 items (pre ++ x :: post) = pre ++ x :: items ++ post.
Proof.
  replace (pre ++ x :: post) with ((pre ++ [x]) ++ post) by by rewrite <- app_assoc.
  replace (length pre + 1)%nat with (length (pre ++ [x]))
    by (rewrite length_app; simpl; lia).
  rewrite splice_at_split. by rewrite <- app_assoc.
Qed.

Lemma splice_delete_split pre post x :
  splice (length pre) 1 [] (pre ++ x :: post) = pre ++ post.
Proof.
  unfold splice. rewrite take_app_length. simpl.
  replace (length pre + 1)%nat with (length (pre ++ [x]))
    by (rewrite length_app; simpl; lia).
  replace (pre ++ x :: post) with ((pre ++ [x]) ++ post) by by rewrite <- app_assoc.
  by rewrite drop_app_length.
Qed.

Lemma lookup_at_split pre post : (pre ++ post) !! length pre = head post.
Proof.
  rewrite lookup_app_r, Nat.sub_diag by lia. by destruct post.
Qed.
End split_ops.

Lemma dropCovered_split n pre g post e :
  (length post ≤ n)%nat →
  dropCovered n (length pre) e (pre ++ g :: post) = pre ++ skipCovered e post.
Proof.
  revert g post. induction n as [|n IH]; intros g post Hn.
  - destruct post; [|simpl in Hn; lia].
    simpl. rewrite splice_delete_split, lookup_at_split. done.
  - simpl. rewrite splice_delete_split, lookup_at_split.
    destruct post as [|g' post]; [done|]. simpl.
    destruct (decide (CuesInfos.end_ g' < e)); [|done].
    apply IH. simpl in Hn. lia.
Qed.

Lemma skipCovered_suffix e post : skipCovered e post `suffix_of` post.
Proof.
  induction post as [|g post IH]; simpl; [done|].
  destruct (decide _); [by apply suffix_cons_r|done].
Qed.

Lemma skipCovered_head e post g post' :
  skipCovered e post = g :: post' → ¬ CuesInfos.end_ g < e.
Proof.
  induction post as [|g0 post IH]; simpl; [done|].
  destruct (decide _); [done|]. by intros [= -> ->].
Qed.

(** *** The buffer after [insert], by cases *)

Lemma insert_buffer_push this cues start end_ :
  list_find (λ g, start < CuesInfos.end_ g) (_cuesBuffer this) = None →
  insert this cues start end_
  = mk (arrays this) (_cuesBuffer this ++ [CuesInfos.mk start end_ cues]).
Proof. intros H. unfold insert. by rewrite H. Qed.

Lemma insert_buffer_found this cues start end_ pre g post :
  _cuesBuffer this = pre ++ g :: post →
  Forall (λ x, ¬ start < CuesInfos.end_ x) pre →
  start < CuesInfos.end_ g →
  _cuesBuffer (insert this cues start end_)
  = pre ++ resolved (CuesInfos.mk start end_ cues) g post.
Proof.
  intros Hbuf Hpre Hg. unfold insert, resolved. rewrite Hbuf.
  rewrite (find_at_split (λ g, start < CuesInfos.end_ g)) by done.
  cbn [CuesInfos.start CuesInfos.end_].
  repeat (rewrite ?set_at_split, ?array_set_at_split, ?splice_after_split;
          try rewrite (splice_at_split pre (_ :: _)); cbn [_cuesBuffer app];
          first [ done | case_match ]).
  all: rewrite ?length_app in *; cbn [length] in *.
  all: replace (length pre + S (length post) - S (length pre))%nat
         with (length post) in * by lia.
  all: rewrite dropCovered_split in * by done.
  all: rewrite lookup_at_split in *.
  all: destruct (skipCovered end_ post) as [|g' post'] eqn:Hskip;
         simplify_eq/=.
  all: rewrite ?set_at_split, ?array_set_at_split;
         try rewrite (splice_at_split pre (_ :: _)); try done.
  all: try (rewrite app_nil_r, array_set_at_length; done).
  all: try (match goal with H : areNearlyEqual _ _ = _ |- _ => rewrite H end; done).
  all: congruence.
Qed.

(** *** Orderings *)

Section ordering.
Context {A : Type} (lo hi : A → Q).
Implicit Types (l : list A) (a b : A).

Lemma ordered_app l1 l2 :
  ordered lo hi (l1 ++ l2) ↔
  ordered lo hi l1 ∧ ordered lo hi l2
  ∧ Forall (λ a, Forall (λ b, hi a <= lo b) l2) l1.
Proof.
  induction l1 as [|a l1 IH]; simpl.
  - intuition.
  - rewrite IH, Forall_app, Forall_cons. tauto.
Qed.

Lemma ordered_suffix l1 l2 :
  l1 `suffix_of` l2 → ordered lo hi l2 → ordered lo hi l1.
Proof. intros [k ->]. rewrite ordered_app. tauto. Qed.

Lemma Forall_suffix (P : A → Prop) l1 l2 :
  l1 `suffix_of` l2 → Forall P l2 → Forall P l1.
Proof. intros [k ->]. rewrite Forall_app. tauto. Qed.

Lemma Forall_lower (x y : Q) l :
  y <= x → Forall (λ b, x <= lo b) l → Forall (λ b, y <= lo b) l.
Proof.
  intros Hxy H. eapply Forall_impl; [exact H|]. intros b Hb. simpl in Hb. lra.
Qed.

(** In an ordered list, an earlier object ends before a later one starts. *)
Lemma ordered_lookup l i j a b :
  ordered lo hi l → (i < j)%nat → l !! i = Some a → l !! j = Some b →
  hi a <= lo b.
Proof.
  revert i j. induction l as [|c l IH]; intros i j Hord Hij Hi Hj; [done|].
  destruct Hord as (Hc & Hall & Hord).
  destruct i as [|i], j as [|j]; try lia; simpl in *.
  - simplify_eq. by eapply (proj1 (Forall_lookup _ _) Hall).
  - eapply (IH i j); eauto with lia.
Qed.

Lemma ordered_wf l a : ordered lo hi l → a ∈ l → lo a <= hi a.
Proof.
  induction l as [|c l IH]; [by intros _ ?%elem_of_nil|].
  intros (Hc & _ & Hord) [->|?]%elem_of_cons; auto.
Qed.

Lemma ordered_invariant l : ordered lo hi l → ordering_invariant lo hi l.
Proof.
  intros Hord. split; intros i a b Hi Hj.
  - pose proof (ordered_lookup l i (S i) a b Hord) as H.
    pose proof (ordered_wf l a Hord) as Ha.
    specialize (H ltac:(lia) Hi Hj).
    specialize (Ha ltac:(by eapply list_elem_of_lookup_2)). lra.
  - eapply (ordered_lookup l i (S i)); eauto.
Qed.

(** The two adjacent conditions give the pairwise ones. *)
Lemma sorted_by_start_lookup l i j a b :
  sorted_by_start lo l → (i ≤ j)%nat → l !! i = Some a → l !! j = Some b →
  lo a <= lo b.
Proof.
  intros Hs Hij Hi. revert b. induction Hij as [|j Hij IH]; intros b Hj.
  - simplify_eq. lra.
  - destruct (lookup_lt_is_Some_2 l j) as [c Hc];
      [apply lookup_lt_Some in Hj; lia|].
    specialize (IH c Hc). specialize (Hs j c b Hc Hj). lra.
Qed.

Lemma invariant_lookup l i j a b :
  ordering_invariant lo hi l → (i < j)%nat → l !! i = Some a → l !! j = Some b →
  hi a <= lo b.
Proof.
  intros [Hs Hn] Hij Hi Hj.
  destruct (lookup_lt_is_Some_2 l (S i)) as [c Hc];
    [apply lookup_lt_Some in Hj; lia|].
  specialize (Hn i a c Hi Hc).
  pose proof (sorted_by_start_lookup l (S i) j c b Hs ltac:(lia) Hc Hj). lra.
Qed.

End ordering.

(** *** The tolerance test *)

Lemma areNearlyEqual_true a b :
  areNearlyEqual a b = true ↔ a - b <= 0.2 ∧ b - a <= 0.2.
Proof.
  unfold areNearlyEqual, MAX_DELTA_BUFFER_TIME.
  rewrite bool_decide_eq_true, Qabs_Qle_condition. split; intros []; split; lra.
Qed.

Lemma areNearlyEqual_false a b :
  areNearlyEqual a b = false ↔ 0.2 < a - b ∨ 0.2 < b - a.
Proof.
  unfold areNearlyEqual, MAX_DELTA_BUFFER_TIME.
  rewrite bool_decide_eq_false, Qabs_Qle_condition. split.
  - intros H. destruct (Qlt_le_dec 0.2 (a - b)); [by left|].
    destruct (Qlt_le_dec 0.2 (b - a)); [by right|]. exfalso. apply H. split; lra.
  - intros [|] []; lra.
Qed.

Lemma areNearlyEqual_refl a : areNearlyEqual a a = true.
Proof. apply areNearlyEqual_true. split; lra. Qed.

(** *** [insert] keeps the buffer ordered *)

Lemma skipCovered_cases e post :
  skipCovered e post = []
  ∨ ∃ g' post', skipCovered e post = g' :: post'
                ∧ e <= CuesInfos.end_ g'
                ∧ (g' :: post') `suffix_of` post.
Proof.
  destruct (skipCovered e post) as [|g' post'] eqn:H; [by left|right].
  exists g', post'. split; [done|]. split.
  - apply skipCovered_head in H. lra.
  - rewrite <- H. apply skipCovered_suffix.
Qed.

(** Every group standing from the found index on starts at or after
    [start], or where a group that was there started. *)
Lemma resolved_starts new g post :
  CuesInfos.start new < CuesInfos.end_ new →
  Forall (λ b, CuesInfos.start new <= CuesInfos.start b
               ∨ ∃ x, x ∈ g :: post ∧ CuesInfos.start b = CuesInfos.start x)
         (resolved new g post).
Proof.
  intros Hse.
  assert (Hpost : ∀ l, l `suffix_of` post →
            Forall (λ b, CuesInfos.start new <= CuesInfos.start b
               ∨ ∃ x, x ∈ g :: post ∧ CuesInfos.start b = CuesInfos.start x) l).
  { intros l Hl. apply Forall_forall. intros b Hb. right. exists b.
    split; [|done]. right. by eapply elem_of_suffix. }
  assert (Hnew : CuesInfos.start new <= CuesInfos.start new) by lra.
  unfold resolved.
  destruct (skipCovered_cases (CuesInfos.end_ new) post)
    as [Hs|(g' & post' & Hs & _ & Hsuf)]; rewrite Hs;
    repeat case_match;
    repeat (apply Forall_cons; split);
    try (apply Hpost; first [done | by eapply suffix_cons_l]);
    try (by left); try (left; simpl; lra);
    try (right; exists g; split; [by left|done]).
Qed.

Lemma resolved_ordered new g post :
  CuesInfos.start new < CuesInfos.end_ new →
  CuesInfos.start new < CuesInfos.end_ g →
  groups_ordered (g :: post) →
  CuesInfos.end_ new <= CuesInfos.end_ g
  ∨ (areNearlyEqual (CuesInfos.start new) (CuesInfos.start g) = true
     ∧ areNearlyEqual (CuesInfos.end_ new) (CuesInfos.end_ g) = false)
  ∨ (CuesInfos.start g - MAX_DELTA_BUFFER_TIME <= CuesInfos.start new
     ∧ match head post with
       | Some next => CuesInfos.end_ new <= CuesInfos.start next
       | None => True
       end) →
  groups_ordered (resolved new g post).
Proof.
  intros Hse Hsg (Hg & Hgpost & Hpost) Hfits.
  unfold MAX_DELTA_BUFFER_TIME in Hfits.
  (* behind the next group, everything starts later still *)
  assert (Hfits' :
    CuesInfos.end_ new <= CuesInfos.end_ g
    ∨ (areNearlyEqual (CuesInfos.start new) (CuesInfos.start g) = true
       ∧ areNearlyEqual (CuesInfos.end_ new) (CuesInfos.end_ g) = false)
    ∨ (CuesInfos.start g - 0.2 <= CuesInfos.start new
       ∧ Forall (λ b, CuesInfos.end_ new <= CuesInfos.start b) post)).
  { destruct Hfits as [H|[H|[H Hx]]]; [by left|by right; left|].
    right; right. split; [done|].
    destruct post as [|next post']; [constructor|].
    simpl in Hx. destruct Hpost as (Hn & Hnpost & _).
    constructor; [done|]. eapply Forall_lower; [|exact Hnpost]. lra. }
  clear Hfits.
  assert (Hwithin : CuesInfos.end_ new <= CuesInfos.end_ g →
            Forall (λ b, CuesInfos.end_ new <= CuesInfos.start b) post).
  { intros H. eapply Forall_lower; [|exact Hgpost]. done. }
  unfold resolved.
  destruct (areNearlyEqual (CuesInfos.start new) (CuesInfos.start g)) eqn:Hs.
  - apply areNearlyEqual_true in Hs.
    destruct (areNearlyEqual (CuesInfos.end_ new) (CuesInfos.end_ g)) eqn:He.
    + apply areNearlyEqual_true in He.
      simpl. split; [lra|]. split; [|done].
      destruct Hfits' as [H|[[_ H]|[_ H]]]; [by apply Hwithin|done|done].
    + apply areNearlyEqual_false in He.
      destruct (decide (CuesInfos.end_ new < CuesInfos.end_ g)) as [Hlt|Hlt].
      * simpl. split; [lra|]. split; [|split; [lra|done]].
        constructor; [simpl; lra|]. apply Hwithin. lra.
      * destruct (skipCovered_cases (CuesInfos.end_ new) post)
          as [Hk|(g' & post' & Hk & Hle & Hsuf)]; rewrite Hk.
        { simpl. split; [lra|]. split; [constructor|done]. }
        pose proof (ordered_suffix _ _ _ _ Hsuf Hpost) as (Hg' & Hg'post & Hpost').
        destruct (areNearlyEqual (CuesInfos.end_ new) (CuesInfos.end_ g')).
        -- simpl. split; [lra|]. split; [|done].
           eapply Forall_lower; [|exact Hg'post]. done.
        -- simpl. split; [lra|]. split; [|split; [lra|done]].
           constructor; [simpl; lra|]. eapply Forall_lower; [|exact Hg'post]. done.
  - apply areNearlyEqual_false in Hs.
    destruct Hfits' as [Hfits|[[Hfits _]|[Hlo Hnx]]]; [|done|].
    + (* the new range ends within [g] *)
      specialize (Hwithin Hfits).
      destruct (decide (CuesInfos.start new < CuesInfos.start g)).
      * destruct (decide (CuesInfos.end_ new < CuesInfos.start g)).
        -- simpl. split; [lra|]. split; [|done].
           constructor; [lra|done].
        -- simpl. split; [lra|]. split; [|split; [lra|done]].
           constructor; [simpl; lra|done].
      * destruct (bool_decide (CuesInfos.end_ g < CuesInfos.end_ new)
                  || areNearlyEqual (CuesInfos.end_ new) (CuesInfos.end_ g)).
        -- simpl. split; [lra|]. split; [|split; [lra|done]].
           constructor; [simpl; lra|]. eapply Forall_lower; [|exact Hgpost]. lra.
        -- simpl. split; [lra|]. done.
    + rewrite decide_False by lra.
      destruct (bool_decide (CuesInfos.end_ g < CuesInfos.end_ new)
                || areNearlyEqual (CuesInfos.end_ new) (CuesInfos.end_ g)).
      * simpl. split; [lra|]. split; [|split; [lra|done]].
        constructor; [simpl; lra|]. eapply Forall_lower; [|exact Hgpost]. lra.
      * simpl. split; [lra|]. done.
Qed.

Lemma insert_ordered this cues start end_ :
  groups_ordered (_cuesBuffer this) →
  start < end_ →
  within_resolved (_cuesBuffer this) start end_ →
  groups_ordered (_cuesBuffer (insert this cues start end_)).
Proof.
  intros Hord Hse Hfits. unfold within_resolved in Hfits.
  destruct (list_find _ (_cuesBuffer this)) as [[i g]|] eqn:Hfind.
  - destruct (find_split _ _ _ _ Hfind) as (pre & post & Hbuf & Hi & Hpre & Hg).
    rewrite (insert_buffer_found this cues start end_ pre g post) by done.
    rewrite Hbuf in Hord, Hfits.
    apply ordered_app in Hord as (Hopre & Hotail & Hcross).
    replace ((pre ++ g :: post) !! S i) with (head post) in Hfits.
    2: { subst i. replace (pre ++ g :: post) with ((pre ++ [g]) ++ post)
           by by rewrite <- app_assoc.
         replace (S (length pre)) with (length (pre ++ [g]))
           by (rewrite length_app; simpl; lia).
         by rewrite lookup_at_split. }
    apply ordered_app. split; [done|]. split.
    + by apply resolved_ordered.
    + pose proof (resolved_starts (CuesInfos.mk start end_ cues) g post Hse) as Hst.
      apply Forall_forall. intros a Ha. apply Forall_forall. intros b Hb.
      rewrite Forall_forall in Hst. specialize (Hst b Hb). simpl in Hst.
      rewrite Forall_forall in Hpre. specialize (Hpre a Ha). simpl in Hpre.
      rewrite Forall_forall in Hcross. specialize (Hcross a Ha).
      rewrite Forall_forall in Hcross.
      destruct Hst as [Hst|(x & Hx & Hst)]; [lra|].
      specialize (Hcross x Hx). simpl in Hcross. rewrite Hst. done.
  - rewrite insert_buffer_push by done. simpl.
    apply ordered_app. split; [done|]. split; [simpl; split; [lra|by split]|].
    apply list_find_None in Hfind.
    eapply Forall_impl; [exact Hfind|]. intros a Ha. simpl in Ha.
    constructor; [simpl; lra|constructor].
Qed.

Lemma run_ordered this calls :
  groups_ordered (_cuesBuffer this) →
  run_within_resolved this calls →
  groups_ordered (_cuesBuffer (run this calls)).
Proof.
  revert this. induction calls as [|c calls IH]; intros this Hord Hrun; [done|].
  destruct Hrun as (Hse & Hfits & Hrun). simpl.
  apply IH; [|done]. by apply insert_ordered.
Qed.

(** *** The non-overlap invariant (C1) *)


(** The invariant also breaks without the tolerance, where a new range
    reaches over a whole group it does not start with: [5, 30) over
    [10, 20) turns that group into [30, 20), before [20, 40). *)
Example insert_over_a_group :
  _cuesBuffer (run (new example_arrays) [Call 1 10 20; Call 2 20 40; Call 3 5 30])
  = [CuesInfos.mk 5 30 3; CuesInfos.mk 30 20 1; CuesInfos.mk 20 40 2].
Proof. reflexivity. Qed.

(** And where it starts inside a group and ends inside the next one:
    [5, 15) is put between [0, 5) and [10, 20). *)
Example insert_into_next_group :
  _cuesBuffer (run (new example_arrays) [Call 1 0 10; Call 2 10 20; Call 3 5 15])
  = [CuesInfos.mk 0 5 1; CuesInfos.mk 5 15 3; CuesInfos.mk 10 20 2].
Proof. reflexivity. Qed.



(** *** Lookup (C2) *)

Lemma ordering_invariant_tail {A} (lo hi : A → Q) a l :
  ordering_invariant lo hi (a :: l) → ordering_invariant lo hi l.
Proof.
  intros [Hs Hn].
  split; intros i x y Hx Hy; [eapply (Hs (S i))|eapply (Hn (S i))]; eauto.
Qed.

Lemma getCueInCues_Some time cues cue :
  getCueInCues time cues = Some cue → cue ∈ cues ∧ cue_covers cue time.
Proof.
  induction cues as [|c cues IH]; simpl; [done|].
  destruct (decide (time < Cue.end_ c)).
  - destruct (decide (Cue.start c <= time)); [|done].
    intros [= ->]. split; [by left|by split].
  - intros [Hin Hcov]%IH. split; [by right|done].
Qed.

Lemma getCueInCues_covering time cues cue :
  cues_ordering_invariant cues → cue ∈ cues → cue_covers cue time →
  getCueInCues time cues = Some cue.
Proof.
  intros Hinv Hin [Hlo Hhi].
  induction cues as [|c cues IH]; [by apply elem_of_nil in Hin|].
  simpl. apply elem_of_cons in Hin as [<-|Hin].
  - by rewrite !decide_True.
  - apply list_elem_of_lookup in Hin as [j Hj].
    pose proof (invariant_lookup _ _ (c :: cues) 0 (S j) c cue Hinv
                  ltac:(lia) eq_refl Hj) as Hc.
    rewrite decide_False by lra. apply IH.
    + by eapply ordering_invariant_tail.
    + by eapply list_elem_of_lookup_2.
Qed.

(** In an ordered buffer the scan of [get] stops at the group covering
    [time], when there is one. *)
Lemma find_covering_group cuesBuffer g time :
  groups_ordering_invariant cuesBuffer → g ∈ cuesBuffer → group_covers g time →
  ∃ i, list_find (λ g, time < CuesInfos.end_ g) cuesBuffer = Some (i, g).
Proof.
  intros Hinv Hin [Hlo Hhi].
  apply list_elem_of_lookup in Hin as [k Hk].
  destruct (list_find (λ g, time < CuesInfos.end_ g) cuesBuffer)
    as [[i g']|] eqn:Hfind.
  - apply list_find_Some in Hfind as (Hi & Hg' & Hbefore).
    destruct (Nat.lt_trichotomy i k) as [Hlt|[->|Hgt]].
    + pose proof (invariant_lookup _ _ cuesBuffer i k g' g Hinv Hlt Hi Hk). lra.
    + simplify_eq. eauto.
    + by destruct (Hbefore k g Hk Hgt).
  - apply list_find_None in Hfind.
    rewrite Forall_forall in Hfind.
    destruct (Hfind g); [by eapply list_elem_of_lookup_2|done].
Qed.

Lemma get_push_only (h : Arrays) cues start end_ time :
  get (insert (new h) cues start end_) time
  = if decide (time < end_) then
      if decide (start <= time) then getCueInCues time (array_at h cues) else None
    else None.
Proof.
  unfold get, insert, new. simpl.
  destruct (decide (time < end_)); simpl; [|done].
  by destruct (decide (start <= time)).
Qed.

(** C2: in a manager satisfying the ordering invariant, [get(time)] returns
    the cue covering [time] in the group covering [time]; it returns absence
    when no group covers [time] (before any group, past the last one, in a
    gap) and when no cue of the covering group does.  After
    [insert(cuesA, 0, 10)] on an empty manager, [get(5)] is the cue of
    [cuesA] covering 5 and [get(15)] is absence. *)
Theorem get_returns_covering_cue :
  (∀ (this : TextBufferManager) (time : Q),
     store_ordering_invariant this →
     (∀ g cue,
        g ∈ _cuesBuffer this → group_covers g time →
        cue ∈ array_at (arrays this) (CuesInfos.cues g) → cue_covers cue time →
        get this time = Some cue)
     ∧ ((∀ g, g ∈ _cuesBuffer this → ¬ group_covers g time) →
        get this time = None)
     ∧ (∀ g,
          g ∈ _cuesBuffer this → group_covers g time →
          (∀ cue, cue ∈ array_at (arrays this) (CuesInfos.cues g) →
                  ¬ cue_covers cue time) →
          get this time = None))
  ∧ (∀ (h : Arrays) (cuesA : nat),
       cues_ordering_invariant (array_at h cuesA) →
       (∀ cue, cue ∈ array_at h cuesA → cue_covers cue 5 →
               get (insert (new h) cuesA 0 10) 5 = Some cue)
       ∧ get (insert (new h) cuesA 0 10) 15 = None).
Proof.
  split.
  - intros this time [Hgroups Hcues]. split; [|split].
    + intros g cue Hg Hgcov Hcue Hccov.
      destruct (find_covering_group _ g time Hgroups Hg Hgcov) as [i Hfind].
      unfold get. rewrite Hfind. destruct Hgcov as [Hlo Hhi].
      rewrite decide_True by done.
      apply getCueInCues_covering; auto.
    + intros Hnone. unfold get.
      destruct (list_find _ (_cuesBuffer this)) as [[i g]|] eqn:Hfind; [|done].
      apply list_find_Some in Hfind as (Hi & Hg & _).
      destruct (decide (CuesInfos.start g <= time)); [|done].
      destruct (Hnone g); [by eapply list_elem_of_lookup_2|by split].
    + intros g Hg Hgcov Hnone.
      destruct (find_covering_group _ g time Hgroups Hg Hgcov) as [i Hfind].
      unfold get. rewrite Hfind. destruct Hgcov as [Hlo Hhi].
      rewrite decide_True by done.
      destruct (getCueInCues time _) as [cue|] eqn:Hget; [|done].
      apply getCueInCues_Some in Hget as [Hin Hcov]. by destruct (Hnone cue).
  - intros h cuesA Hinv. split.
    + intros cue Hin Hcov. rewrite get_push_only.
      rewrite !decide_True by lra. by apply getCueInCues_covering.
    + rewrite get_push_only. by rewrite decide_False by lra.
Qed.

Lemma get_returns_covering_cue_witness :
  get (insert (new example_arrays) 1 0 10) 3 = Some (cue 12 2 4)
  ∧ get (insert (new example_arrays) 1 0 10) 5 = None.
Proof.
  assert (Hinv : store_ordering_invariant (insert (new example_arrays) 1 0 10)).
  { split.
    - split; intros [|i] a b Ha Hb; simplify_eq/=.
    - intros g ->%list_elem_of_singleton.
      split; intros [|[|[|i]]] a b Ha Hb; vm_compute in Ha, Hb; simplify_eq;
        vm_compute; congruence. }
  pose proof (proj1 get_returns_covering_cue _ 3 Hinv) as (Hsome & _ & _).
  pose proof (proj1 get_returns_covering_cue _ 5 Hinv) as (_ & _ & Hnone).
  split.
  - apply (Hsome (CuesInfos.mk 0 10 1)).
    + by apply list_elem_of_singleton.
    + split; simpl; lra.
    + vm_compute. right; left.
    + split; simpl; lra.
  - apply (Hnone (CuesInfos.mk 0 10 1)).
    + by apply list_elem_of_singleton.
    + split; simpl; lra.
    + intros c Hc [Hlo Hhi]. vm_compute in Hc.
      repeat (apply elem_of_cons in Hc as [->|Hc]; [simpl in *; lra|]).
      by apply elem_of_nil in Hc.
Defined.

(** *** The tolerance snap (C3) *)

(** When the group is the one the scan stops at, it is replaced. *)
Lemma insert_replaces_first this cues start end_ pre g post :
  _cuesBuffer this = pre ++ g :: post →
  Forall (λ x, ¬ start < CuesInfos.end_ x) pre →
  start < CuesInfos.end_ g →
  areNearlyEqual start (CuesInfos.start g) = true →
  areNearlyEqual end_ (CuesInfos.end_ g) = true →
  _cuesBuffer (insert this cues start end_)
  = pre ++ CuesInfos.mk start end_ cues :: post.
Proof.
  intros Hbuf Hpre Hg Hs He.
  rewrite (insert_buffer_found this cues start end_ pre g post) by done.
  unfold resolved. simpl. by rewrite Hs, He.
Qed.

(** C3 fails on the code.  The buffer holds [0, 10) and [10, 20); the new
    range [9.9, 20) is nearly equal to the second group [g] at both ends.
    The scan stops at the first group, since [9.9 < 10]: that group is cut to
    [0, 9.9), the new group is put behind it, and [g] stays in the buffer. *)
Theorem tolerance_snap_missed :
  let this := run (new example_arrays) [Call 1 0 10; Call 2 10 20] in
  let g := CuesInfos.mk 10 20 2 in
  _cuesBuffer this !! 1%nat = Some g
  ∧ areNearlyEqual 9.9 (CuesInfos.start g) = true
  ∧ areNearlyEqual 20 (CuesInfos.end_ g) = true
  ∧ _cuesBuffer (insert this 3 9.9 20)
    = [CuesInfos.mk 0 9.9 1; CuesInfos.mk 9.9 20 3; g]
  ∧ ¬ tolerance_snap_as_specified.
Proof.
  repeat split; try reflexivity.
  intros H.
  pose proof (H (run (new example_arrays) [Call 1 0 10; Call 2 10 20])
                1%nat (CuesInfos.mk 10 20 2) 3%nat 9.9 20
                eq_refl eq_refl eq_refl) as [_ Hgone].
  apply Hgone; [discriminate|].
  vm_compute. do 2 right. left.
Qed.

(** *** Idempotence (C4) *)

(** After a call the new group stands behind groups that all end at or
    before [start]. *)
Lemma insert_shape this cues start end_ :
  start < end_ →
  ∃ pre post,
    _cuesBuffer (insert this cues start end_)
    = pre ++ CuesInfos.mk start end_ cues :: post
    ∧ Forall (λ x, ¬ start < CuesInfos.end_ x) pre.
Proof.
  intros Hse.
  destruct (list_find (λ g, start < CuesInfos.end_ g) (_cuesBuffer this))
    as [[i g]|] eqn:Hfind.
  - destruct (find_split _ _ _ _ Hfind) as (pre & post & Hbuf & Hi & Hpre & Hg).
    rewrite (insert_buffer_found this cues start end_ pre g post) by done.
    unfold resolved. cbn [CuesInfos.start CuesInfos.end_].
    destruct (areNearlyEqual start (CuesInfos.start g)).
    + destruct (areNearlyEqual end_ (CuesInfos.end_ g)); [by eauto|].
      destruct (decide (end_ < CuesInfos.end_ g)); [by eauto|].
      destruct (skipCovered end_ post) as [|g' post']; [by eauto|].
      destruct (areNearlyEqual end_ (CuesInfos.end_ g')); by eauto.
    + destruct (decide (start < CuesInfos.start g)).
      { destruct (decide (end_ < CuesInfos.start g)); by eauto. }
      destruct (bool_decide (CuesInfos.end_ g < end_)
                || areNearlyEqual end_ (CuesInfos.end_ g)); [|by eauto].
      exists (pre ++ [CuesInfos.set_end start g]), post.
      split; [by rewrite <- app_assoc|].
      apply Forall_app. split; [done|].
      constructor; [simpl; lra|constructor].
  - rewrite insert_buffer_push by done. simpl.
    exists (_cuesBuffer this), []. split; [done|].
    by apply list_find_None in Hfind.
Qed.

(** The second of two identical calls changes nothing: neither the buffer
    nor any array of cues. *)
Lemma insert_insert this cues start end_ :
  start < end_ →
  insert (insert this cues start end_) cues start end_
  = insert this cues start end_.
Proof.
  intros Hse.
  destruct (insert_shape this cues start end_ Hse) as (pre & post & Hbuf & Hpre).
  destruct (insert this cues start end_) as [h buf]. simpl in Hbuf. subst buf.
  unfold insert at 1. cbn [arrays _cuesBuffer].
  rewrite (find_at_split (λ g, start < CuesInfos.end_ g)) by done.
  cbn [CuesInfos.start CuesInfos.end_].
  by rewrite !areNearlyEqual_refl, array_set_at_split.
Qed.

(** C4: for every manager and every [(cues, start, end)] with
    [start < end], calling [insert(cues, start, end)] twice in a row gives,
    for every [t] in [[start, end)], the same [get(t)] as calling it once:
    the same cue object (same address, same fields). *)
Theorem insert_twice_get (this : TextBufferManager) (cues : nat) (start end_ t : Q) :
  start < end_ →
  start <= t ∧ t < end_ →
  get (insert (insert this cues start end_) cues start end_) t
  = get (insert this cues start end_) t.
Proof. intros Hse _. by rewrite insert_insert. Qed.

Lemma insert_twice_get_witness :
  get (insert (insert (new example_arrays) 1 0 10) 1 0 10) 3
  = get (insert (new example_arrays) 1 0 10) 3.
Proof.
  apply insert_twice_get; [reflexivity|].
  split; [discriminate|reflexivity].
Defined.

(** *** Trimming (C5, C6) *)

(** Where the start is nearly equal to the group's and the end is before
    its end, no array of cues is touched. *)
Lemma insert_start_equal_arrays this cues start end_ pre g post :
  _cuesBuffer this = pre ++ g :: post →
  Forall (λ x, ¬ start < CuesInfos.end_ x) pre →
  start < CuesInfos.end_ g →
  areNearlyEqual start (CuesInfos.start g) = true →
  areNearlyEqual end_ (CuesInfos.end_ g) = false →
  end_ < CuesInfos.end_ g →
  arrays (insert this cues start end_) = arrays this.
Proof.
  intros Hbuf Hpre Hg Hs He Hlt. unfold insert. rewrite Hbuf.
  rewrite (find_at_split (λ g, start < CuesInfos.end_ g)) by done.
  rewrite Hs, He. by rewrite decide_True.
Qed.

(** [removeInCuesAfter] empties an array whose first cue starts before the
    time, and leaves alone an array whose cues all start at the time or
    after it. *)
Lemma removeInCuesAfter_first_before c rest time :
  Cue.start c < time → removeInCuesAfter (c :: rest) time = [].
Proof.
  intros Hc. unfold removeInCuesAfter. simpl. rewrite decide_True by done.
  unfold splice. simpl. by rewrite drop_all.
Qed.

Lemma removeInCuesAfter_none_before cues time :
  Forall (λ c, ¬ Cue.start c < time) cues → removeInCuesAfter cues time = cues.
Proof.
  intros H. unfold removeInCuesAfter.
  by rewrite (proj2 (list_find_None _ _) H).
Qed.

(** C5 fails on the code.  [insert(cuesA, 0, 10)] then [insert(cuesC, 0, 5)]:
    the start is equal to the group's, the end is before its end and not
    nearly equal.  The group is moved to [5, 10) and the new group is put
    before it, but the array of the group is what it was: the trimming helper
    is handed the group object, not its array, and removes nothing.  The cues
    [0, 2) and [2, 4) stay in the group that now starts at 5. *)
Theorem insert_before_trims_nothing :
  let this := insert (new example_arrays) 1 0 10 in
  let after := insert this 3 0 5 in
  _cuesBuffer this = [CuesInfos.mk 0 10 1]
  ∧ _cuesBuffer after = [CuesInfos.mk 0 5 3; CuesInfos.mk 5 10 1]
  ∧ array_at (arrays after) 1 = [cue 11 0 2; cue 12 2 4; cue 13 6 8]
  ∧ removeInCuesBefore (array_at (arrays this) 1) 5 = [cue 12 2 4; cue 13 6 8].
Proof. repeat split; reflexivity. Qed.

(** C6 fails on the code.  [insert(cuesA, 0, 10)] then [insert(cuesC, 5, 10)]:
    the start is after the group's, the end is equal to its end.  The group
    is cut to [0, 5) and the new group is put behind it, but
    [removeInCuesAfter] splices from the first cue that starts before 5,
    which is the first cue: the cues [0, 2) and [2, 4), before 5, are removed
    with the cue [6, 8). *)
Theorem insert_after_trims_everything :
  let this := insert (new example_arrays) 1 0 10 in
  let after := insert this 3 5 10 in
  _cuesBuffer after = [CuesInfos.mk 0 5 1; CuesInfos.mk 5 10 3]
  ∧ array_at (arrays this) 1 = [cue 11 0 2; cue 12 2 4; cue 13 6 8]
  ∧ array_at (arrays after) 1 = [].
Proof. repeat split; reflexivity. Qed.

End TextBufferFacts.


(** ** Facts about the segment indexes *)

Module IndexFacts.
Open Scope Q_scope.

(** *** The lookup of the helpers (C9) *)

(** C9, as stated, does not hold: with every feature built in, the tag
    ["hls"] has no registered variant and the lookup returns [undefined]. *)
Lemma lookup_fails_as_specified_fails :
  ¬ IndexResolver.lookup_fails_as_specified.
Proof.
  intros H.
  destruct (H (IndexResolver.Build_Features true true)
              (IndexResolver.Build_Index "hls") eq_refl) as [kind Hkind].
  discriminate Hkind.
Qed.

(** C9, amended: for every index whose tag has no registered variant, the
    lookup raises no error; it returns [undefined] as an ordinary value, or,
    for a tag that names a property of [Object.prototype], that inherited
    property. *)
Theorem lookup_unregistered_returns (F : IndexResolver.Features)
    (index : IndexResolver.Index) :
  IndexResolver.unregistered F index →
  IndexResolver.getRightIndexHelpers F index
  = Return (if decide (IndexResolver.indexType index ∈ IndexResolver.ObjectPrototype)
            then IndexResolver.Inherited (IndexResolver.indexType index)
            else IndexResolver.Undefined).
Proof.
  unfold IndexResolver.unregistered, IndexResolver.getRightIndexHelpers,
    IndexResolver.get_property.
  by intros ->.
Qed.

Lemma lookup_unregistered_returns_witness :
  IndexResolver.getRightIndexHelpers (IndexResolver.Build_Features false true)
                                     (IndexResolver.Build_Index "smooth")
  = Return IndexResolver.Undefined.
Proof.
  apply (lookup_unregistered_returns (IndexResolver.Build_Features false true)
                                     (IndexResolver.Build_Index "smooth")).
  reflexivity.
Defined.

(** A registered tag gives its helpers. *)
Example lookup_registered :
  IndexResolver.getRightIndexHelpers (IndexResolver.Build_Features false true)
                                     (IndexResolver.Build_Index "template")
  = Return (IndexResolver.Helpers IndexResolver.template).
Proof. reflexivity. Qed.

(** *** Template: scenario 4 (C7) *)

Section template.
Import TemplateIndex.

Lemma getSegments_loop_step fuel repId index time to segments :
  time <= to →
  getSegments_loop (S fuel) repId index time to segments
  = getSegments_loop fuel repId index (time + duration index) to
                     (segments ++ [segment_at repId index time]).
Proof. intros H. simpl. by rewrite decide_True. Qed.

Lemma getSegments_loop_done fuel repId index time to segments :
  ¬ time <= to →
  getSegments_loop fuel repId index time to segments = Some segments.
Proof. intros H. destruct fuel; simpl; by rewrite decide_False. Qed.

(** The loop of scenario 4 runs its body three times. *)
Lemma scenario_loop fuel :
  getSegments_loop fuel "rep1" scenario_index 0 10 []
  = if decide (3 ≤ fuel)%nat then Some template_segments else None.
Proof.
  destruct (decide (3 ≤ fuel)%nat) as [Hfuel|Hfuel].
  - do 3 (destruct fuel as [|fuel]; [lia|]).
    rewrite !getSegments_loop_step by (vm_compute; discriminate).
    rewrite getSegments_loop_done by (vm_compute; auto).
    reflexivity.
  - destruct fuel as [|[|[|fuel]]]; try reflexivity. exfalso. lia.
Qed.

(** C7, as stated, does not hold: the segments are numbered 1, 2, 3, but
    their times are [number * duration], that is 4, 8, 12, not 0, 4, 8. *)
Lemma scenario_as_specified_fails : ¬ scenario_as_specified normalizeRange_spec.
Proof.
  intros (fuel & segments & Hget & _ & Htime).
  unfold getSegments, normalizeRange_spec in Hget. rewrite scenario_loop in Hget.
  destruct (decide (3 ≤ fuel)%nat); [|done]. simplify_eq.
  apply Forall2_cons_1 in Htime as [Htime _]. vm_compute in Htime. done.
Qed.

(** C7, amended: [getSegments("rep1", index, 0, 10)] with
    [index = {duration: 4, timescale: 1, startNumber: 1, media:
    "seg-$Number$"}], the requested range being normalised to [0, 10],
    returns exactly three segments, numbered 1, 2, 3, whose times are
    [number * duration]: 4, 8, 12. *)
Theorem template_scenario (normalizeRange : Index → Q → Q → Q * Q) (fuel : nat) :
  normalizeRange scenario_index 0 10 = (0, 10) →
  (3 ≤ fuel)%nat →
  getSegments normalizeRange fuel "rep1" scenario_index 0 10
  = Some template_segments
  ∧ Segment.number <$> template_segments = [1; 2; 3]%Z
  ∧ Segment.time <$> template_segments = [4; 8; 12].
Proof.
  intros Hrange Hfuel. split; [|by split].
  unfold getSegments. rewrite Hrange, scenario_loop. by rewrite decide_True.
Qed.

Lemma template_scenario_witness :
  getSegments normalizeRange_spec 3 "rep1" scenario_index 0 10
  = Some template_segments.
Proof.
  apply (template_scenario normalizeRange_spec 3); [reflexivity|].
  apply le_n.
Defined.

End template.

(** *** Base: adding a segment (C8) *)



End IndexFacts.

(** ** Facts about the native text track source buffer *)

Module NativeTextTrackFacts.
Import NativeTextTrack.
Open Scope Q_scope.

(** C10: when the end of the appended data minus its start is zero or
    less, [_append] returns at once: no cue is added to the track and the
    buffered ranges are what they were.  The state is unchanged; a warning
    is logged and nothing is thrown. *)
Theorem append_invalid_range_skipped {Ranges : Type}
    (buffered_insert : Ranges → Q → Q → Ranges)
    (buffered_remove : Ranges → Q → Bound → Ranges)
    (parseTextTrackToCues : string → string → string → list TextTrackCue.t)
    (addCue removeCue : list TextTrackCue.t → TextTrackCue.t → list TextTrackCue.t)
    (this : State) (data : AppendData.t) (timescaledEnd : Q) :
  AppendData.end_ data = Some timescaledEnd →
  timescaledEnd - AppendData.start data <= 0 →
  _append buffered_insert buffered_remove parseTextTrackToCues addCue removeCue
          this data
  = (this, ["Invalid subtitles appended"%string]).
Proof.
  intros Hend Hle. unfold _append, invalid_range. rewrite Hend.
  by rewrite bool_decide_eq_true_2.
Qed.

Lemma append_invalid_range_skipped_witness :
  example_append (mkState [TextTrackCue.mk 7 0 1] [(0, 1)])
                 (AppendData.mk 1 5 (Some 5) "" "vtt" "en")
  = (mkState [TextTrackCue.mk 7 0 1] [(0, 1)],
     ["Invalid subtitles appended"%string]).
Proof.
  apply (append_invalid_range_skipped _ _ _ _ _ _ _ 5); [reflexivity|].
  discriminate.
Defined.

(** A valid append does change the state. *)
Example append_valid :
  example_append (mkState [TextTrackCue.mk 7 0 1] [(0, 1)])
                 (AppendData.mk 1 1 (Some 3) "" "vtt" "en")
  = (mkState [TextTrackCue.mk 7 0 1; TextTrackCue.mk 1 0 2] [(0, 1); (1 / 1, 3 / 1)],
     []).
Proof. reflexivity. Qed.

End NativeTextTrackFacts.

(** ** More about the text buffer manager *)

Module TextBufferMore.
Import TextBuffer TextBufferSpec TextBufferRuns TextBufferFacts.
Open Scope Q_scope.

(** *** The tolerance test *)

(** [areNearlyEqual] is reflexive and symmetric, but not transitive: 0 is
    nearly 0.2 and 0.2 is nearly 0.4, while 0 is not nearly 0.4. *)
Theorem areNearlyEqual_not_equivalence :
  (∀ a, areNearlyEqual a a = true)
  ∧ (∀ a b, areNearlyEqual a b = areNearlyEqual b a)
  ∧ ¬ nearly_transitive.
Proof.
  split; [apply areNearlyEqual_refl|]. split.
  - intros a b.
    destruct (areNearlyEqual b a) eqn:H.
    + apply areNearlyEqual_true in H. apply areNearlyEqual_true. tauto.
    + apply areNearlyEqual_false in H. apply areNearlyEqual_false. tauto.
  - intros H. specialize (H 0 0.2 0.4 eq_refl eq_refl). discriminate H.
Qed.

(** *** The trimming helpers *)

Lemma removeInCuesBefore_from_cases n cues time :
  (n ≤ length cues)%nat →
  (Forall (λ c, ¬ Cue.start c < time) (take n cues)
   ∧ removeInCuesBefore_from n cues time = cues)
  ∨ ∃ i c, (i < n)%nat ∧ cues !! i = Some c ∧ Cue.start c < time
           ∧ Forall (λ c, ¬ Cue.start c < time) (take (n - S i) (drop (S i) cues))
           ∧ removeInCuesBefore_from n cues time = drop i cues.
Proof.
  induction n as [|n IH]; intros Hn.
  - left. by rewrite take_0.
  - cbn [removeInCuesBefore_from].
    destruct (lookup_lt_is_Some_2 cues n ltac:(lia)) as [c Hc].
    rewrite Hc. destruct (decide (Cue.start c < time)) as [Hlt|Hge].
    + right. exists n, c. rewrite Nat.sub_diag, take_0.
      split; [lia|]. split; [done|]. split; [done|]. split; [constructor|done].
    + destruct (IH ltac:(lia)) as [[Hall Hres]|(i & c' & Hi & Hc' & Hlt & Hall & Hres)].
      * left. split; [|done]. rewrite (take_S_r _ _ c) by done.
        apply Forall_app. split; [done|]. by constructor.
      * right. exists i, c'.
        split; [lia|]. split; [done|]. split; [done|]. split; [|done].
        replace (S n - S i)%nat with (S (n - S i)) by lia.
        rewrite (take_S_r _ _ c).
        -- apply Forall_app. split; [done|]. by constructor.
        -- rewrite lookup_drop. rewrite <- Hc. f_equal. lia.
Qed.

(** [removeInCuesBefore] keeps the last cue that starts before [time] and
    all that stands behind it, and nothing else; without a cue that starts
    before [time] it removes nothing.  In a list sorted by start, the cues
    it removes all start before [time]. *)
Theorem removeInCuesBefore_keeps_from_last_before cues time :
  (Forall (λ c, ¬ Cue.start c < time) cues
   ∧ removeInCuesBefore cues time = cues)
  ∨ ∃ removed c kept,
      cues = removed ++ c :: kept
      ∧ Cue.start c < time
      ∧ Forall (λ c, ¬ Cue.start c < time) kept
      ∧ removeInCuesBefore cues time = c :: kept
      ∧ (sorted_by_start Cue.start cues →
         Forall (λ c, Cue.start c < time) removed).
Proof.
  unfold removeInCuesBefore.
  destruct (removeInCuesBefore_from_cases (length cues) cues time (le_n _))
    as [[Hall Hres]|(i & c & Hi & Hc & Hlt & Hall & Hres)].
  - left. by rewrite firstn_all in Hall.
  - right. exists (take i cues), c, (drop (S i) cues).
    rewrite take_drop_middle by done. split; [done|]. split; [done|].
    split.
    { rewrite take_ge in Hall; [done|]. rewrite length_drop. lia. }
    split.
    { rewrite Hres. by apply drop_S. }
    intros Hsorted. apply Forall_forall. intros c' Hc'.
    apply elem_of_take in Hc' as (j & Hj & Hji).
    pose proof (sorted_by_start_lookup _ cues j i c' c Hsorted ltac:(lia) Hj Hc).
    lra.
Qed.

(** [removeInCuesAfter] keeps the longest prefix of cues none of which
    starts before [time]: it cuts at the first cue that does.  A cue that
    starts before [time] is thus never kept. *)
Theorem removeInCuesAfter_keeps_prefix cues time :
  ∃ removed,
    cues = removeInCuesAfter cues time ++ removed
    ∧ Forall (λ c, ¬ Cue.start c < time) (removeInCuesAfter cues time)
    ∧ (removed = [] ∨ ∃ c rest, removed = c :: rest ∧ Cue.start c < time).
Proof.
  unfold removeInCuesAfter.
  destruct (list_find _ cues) as [[i c]|] eqn:Hfind.
  - destruct (find_split _ _ _ _ Hfind) as (pre & post & -> & <- & Hpre & Hc).
    exists (c :: post). unfold splice.
    rewrite take_app_length, drop_ge by lia. simpl. rewrite app_nil_r.
    split; [done|]. split; [done|]. right. eauto.
  - exists []. rewrite app_nil_r. split; [done|].
    split; [by apply list_find_None in Hfind|by left].
Qed.

(** *** Lookup *)

Lemma get_uncovered this time :
  (∀ g, g ∈ _cuesBuffer this → ¬ group_covers g time) → get this time = None.
Proof.
  intros Hnone. unfold get.
  destruct (list_find _ (_cuesBuffer this)) as [[i g]|] eqn:Hfind; [|done].
  apply list_find_Some in Hfind as (Hi & Hg & _).
  destruct (decide (CuesInfos.start g <= time)); [|done].
  destruct (Hnone g); [by eapply list_elem_of_lookup_2|by split].
Qed.

(** Whatever the buffer holds, a cue [get(time)] returns covers [time] and
    belongs to a stored group that covers [time]. *)
Theorem get_sound this time cue :
  get this time = Some cue →
  cue_covers cue time
  ∧ ∃ g, g ∈ _cuesBuffer this ∧ group_covers g time
         ∧ cue ∈ array_at (arrays this) (CuesInfos.cues g).
Proof.
  unfold get.
  destruct (list_find _ (_cuesBuffer this)) as [[i g]|] eqn:Hfind; [|done].
  apply list_find_Some in Hfind as (Hi & Hg & _).
  destruct (decide (CuesInfos.start g <= time)); [|done].
  intros [Hin Hcov]%getCueInCues_Some. split; [done|].
  exists g. split; [by eapply list_elem_of_lookup_2|]. by split.
Qed.

Lemma get_sound_witness :
  cue_covers (cue 12 2 4) 3.
Proof.
  apply (get_sound (insert (new example_arrays) 1 0 10) 3 (cue 12 2 4)).
  reflexivity.
Defined.

(** *** What [insert] leaves in place, and what it makes visible *)

(** The only array [insert] can splice is the one of a group that was
    stored. *)
Lemma insert_arrays_cases this cues start end_ :
  arrays (insert this cues start end_) = arrays this
  ∨ ∃ g l, g ∈ _cuesBuffer this
           ∧ arrays (insert this cues start end_)
             = <[CuesInfos.cues g := l]> (arrays this).
Proof.
  unfold insert.
  destruct (list_find _ (_cuesBuffer this)) as [[i g]|] eqn:Hfind; [|by left].
  destruct (find_split _ _ _ _ Hfind) as (pre & post & Hbuf & Hi & Hpre & Hg).
  assert (Hin : g ∈ _cuesBuffer this).
  { rewrite Hbuf. apply elem_of_app. right. by left. }
  destruct (areNearlyEqual start (CuesInfos.start g)).
  - destruct (areNearlyEqual end_ (CuesInfos.end_ g)); [by left|].
    destruct (decide (end_ < CuesInfos.end_ g)); [by left|].
    rewrite Hbuf. subst i. rewrite length_app. cbn [length].
    replace (length pre + S (length post) - S (length pre))%nat
      with (length post) by lia.
    rewrite dropCovered_split by done. rewrite lookup_at_split.
    destruct (skipCovered_cases end_ post) as [Hk|(g' & post' & Hk & _ & Hsuf)];
      rewrite Hk; cbn [head]; [by left|].
    destruct (areNearlyEqual end_ (CuesInfos.end_ g')); [by left|].
    right. exists g'. eexists. split; [|reflexivity].
    apply elem_of_app. right. right.
    eapply elem_of_suffix; [|exact Hsuf]. by left.
  - destruct (decide (start < CuesInfos.start g)).
    + destruct (decide (end_ < CuesInfos.start g)); [by left|].
      destruct (areNearlyEqual end_ (CuesInfos.start g)); [by left|].
      right. exists g. eexists. split; [done|reflexivity].
    + destruct (bool_decide (CuesInfos.end_ g < end_)
                || areNearlyEqual end_ (CuesInfos.end_ g)); [|by left].
      right. exists g. eexists. split; [done|reflexivity].
Qed.

(** An array no stored group refers to is not touched by [insert]. *)
Lemma insert_array_unshared this cues start end_ r :
  (∀ g, g ∈ _cuesBuffer this → CuesInfos.cues g ≠ r) →
  array_at (arrays (insert this cues start end_)) r = array_at (arrays this) r.
Proof.
  intros Hfresh.
  destruct (insert_arrays_cases this cues start end_)
    as [->|(g & l & Hg & ->)]; [done|].
  unfold array_at. rewrite lookup_insert_ne; [done|]. by apply Hfresh.
Qed.

(** Whatever the buffer held, after [insert(cues, start, end)] with
    [start < end] every time of [[start, end)] is answered from the array
    [cues]; no older group shows through.  When no stored group shared that
    array, it is answered from the array as it was handed over. *)
Theorem get_after_insert this cues start end_ time :
  start < end_ →
  start <= time ∧ time < end_ →
  get (insert this cues start end_) time
  = getCueInCues time (array_at (arrays (insert this cues start end_)) cues)
  ∧ ((∀ g, g ∈ _cuesBuffer this → CuesInfos.cues g ≠ cues) →
     get (insert this cues start end_) time
     = getCueInCues time (array_at (arrays this) cues)).
Proof.
  intros Hse [Hlo Hhi].
  assert (Hget : get (insert this cues start end_) time
    = getCueInCues time (array_at (arrays (insert this cues start end_)) cues)).
  { destruct (insert_shape this cues start end_ Hse) as (pre & post & Hbuf & Hpre).
    unfold get. rewrite Hbuf.
    rewrite (find_at_split (λ g, time < CuesInfos.end_ g)).
    - cbn [CuesInfos.start CuesInfos.cues]. by rewrite decide_True.
    - eapply Forall_impl; [exact Hpre|]. intros g Hg. simpl in *. lra.
    - done. }
  split; [done|]. intros Hfresh. rewrite Hget.
  by rewrite insert_array_unshared.
Qed.

Lemma get_after_insert_witness :
  get (insert (insert (new example_arrays) 1 0 10) 2 5 20) 12
  = getCueInCues 12 (array_at example_arrays 2).
Proof.
  destruct (get_after_insert (insert (new example_arrays) 1 0 10) 2 5 20 12)
    as [_ H]; [reflexivity|split; [discriminate|reflexivity]|].
  rewrite H; [reflexivity|].
  intros g ->%list_elem_of_singleton. discriminate.
Defined.

(** The groups in front of the first one with [start < g.end] are left
    where they are, and as they are; when there is no such group the new
    one is added at the end and nothing else changes. *)
Theorem insert_keeps_groups_before this cues start end_ :
  match list_find (λ g, start < CuesInfos.end_ g) (_cuesBuffer this) with
  | Some (i, _) =>
      take i (_cuesBuffer (insert this cues start end_))
      = take i (_cuesBuffer this)
  | None =>
      insert this cues start end_
      = mk (arrays this)
           (_cuesBuffer this ++ [CuesInfos.mk start end_ cues])
  end.
Proof.
  destruct (list_find _ (_cuesBuffer this)) as [[i g]|] eqn:Hfind.
  - destruct (find_split _ _ _ _ Hfind) as (pre & post & Hbuf & Hi & Hpre & Hg).
    rewrite (insert_buffer_found this cues start end_ pre g post) by done.
    rewrite Hbuf. subst i. by rewrite !take_app_length.
  - by apply insert_buffer_push.
Qed.

(** Calls in ascending order, none starting before what is stored ends,
    are stored one behind the other as they come; no array is touched.
    Touching ranges, as [[0, 10)] then [[10, 20)], stay two groups. *)
Lemma run_appends this bound calls :
  Forall (λ g, CuesInfos.end_ g <= bound) (_cuesBuffer this) →
  follow bound calls →
  run this calls = mk (arrays this) (_cuesBuffer this ++ (group_of <$> calls)).
Proof.
  revert this bound. induction calls as [|c calls IH]; intros this bound Hall Hf.
  - simpl. rewrite app_nil_r. by destruct this.
  - destruct Hf as (Hb & Hse & Hf). cbn [run foldl].
    fold (run (apply_call this c) calls). unfold apply_call. rewrite insert_buffer_push.
    + rewrite (IH _ (call_end c)); [|simpl|done].
      * simpl. by rewrite <- app_assoc.
      * apply Forall_app. split.
        -- eapply Forall_impl; [exact Hall|]. intros g Hg. simpl in Hg. lra.
        -- constructor; [simpl; lra|constructor].
    + apply list_find_None.
      eapply Forall_impl; [exact Hall|]. intros g Hg. simpl in Hg. lra.
Qed.

Theorem run_in_order_appends (h : Arrays) (bound : Q) (calls : list InsertCall) :
  follow bound calls →
  run (new h) calls = mk h (group_of <$> calls).
Proof. intros Hf. by rewrite (run_appends (new h) bound calls). Qed.

Lemma run_in_order_appends_witness :
  run (new example_arrays) [Call 1 0 10; Call 2 10 20; Call 3 25 30]
  = mk example_arrays
       [CuesInfos.mk 0 10 1; CuesInfos.mk 10 20 2; CuesInfos.mk 25 30 3].
Proof.
  apply (run_in_order_appends example_arrays 0).
  apply (bool_decide_unpack _). vm_compute. exact I.
Defined.



End TextBufferMore.

(** ** More about the segment indexes *)

Module IndexMore.
Open Scope Q_scope.

(** *** The lookup of the helpers *)

(** A tag is resolved to helpers exactly when its format is built in:
    ["smooth"] under [SMOOTH]; ["timeline"], ["template"], ["list"] and
    ["base"] under [DASH]. *)
Theorem lookup_registered_iff (F : IndexResolver.Features)
    (index : IndexResolver.Index) (h : IndexResolver.IndexHelpers) :
  IndexResolver.getRightIndexHelpers F index = Return (IndexResolver.Helpers h)
  ↔ (IndexResolver.SMOOTH F = true
     ∧ IndexResolver.indexType index = "smooth" ∧ h = IndexResolver.smooth)
    ∨ (IndexResolver.DASH F = true
       ∧ ((IndexResolver.indexType index = "timeline" ∧ h = IndexResolver.timeline)
          ∨ (IndexResolver.indexType index = "template" ∧ h = IndexResolver.template)
          ∨ (IndexResolver.indexType index = "list" ∧ h = IndexResolver.list_)
          ∨ (IndexResolver.indexType index = "base" ∧ h = IndexResolver.base))).
Proof.
  unfold IndexResolver.getRightIndexHelpers, IndexResolver.get_property.
  transitivity (IndexResolver.indexes F !! IndexResolver.indexType index = Some h).
  { destruct (IndexResolver.indexes F !! IndexResolver.indexType index) as [h'|].
    - split; intros [=]; by subst.
    - split; [|done]. by destruct (decide _). }
  unfold IndexResolver.indexes. destruct index as [tag].
  destruct F as [[] []]; cbn [IndexResolver.SMOOTH IndexResolver.DASH];
    rewrite ?lookup_insert_Some, ?lookup_empty; split.
  all: try (intros H;
            repeat (destruct H as [[<- <-]|[_ H]]; [pick_case|]);
            discriminate H).
  all: intros H; repeat (destruct_or?; destruct_and?); simplify_eq/=.
  all: repeat first [ left; split; reflexivity | right; split; [discriminate|] ].
Qed.

(** *** The loop of the template index *)

Section template_loop.
Import TemplateIndex TemplateIndexMore IndexFacts.
Variables (repId : string) (index : Index).
Hypothesis duration_positive : 0 < duration index.

Lemma Qfloor_add_Z (x : Q) (z : Z) : Qfloor (x + inject_Z z) = (Qfloor x + z)%Z.
Proof.
  destruct x as [n d]. unfold Qfloor, Qplus, inject_Z. simpl.
  rewrite Pos.mul_1_r, Z.mul_1_r. apply Z.div_add. lia.
Qed.

Lemma first_number_step time :
  first_number index (time + duration index) = (first_number index time + 1)%Z.
Proof.
  unfold first_number.
  assert (H : (time + duration index) / duration index
              == time / duration index + inject_Z 1).
  { field. lra. }
  rewrite H, Qfloor_add_Z. lia.
Qed.

Lemma rounds_step time to :
  time <= to → rounds index time to = S (rounds index (time + duration index) to).
Proof.
  intros Hle. unfold rounds. rewrite decide_True by done.
  assert (H0 : 0 <= (to - time) / duration index).
  { apply Qle_shift_div_l; [done|]. lra. }
  apply Qfloor_resp_le in H0. change (Qfloor 0) with 0%Z in H0.
  destruct (decide (time + duration index <= to)) as [Hin|Hout].
  - assert (H : (to - (time + duration index)) / duration index
                == (to - time) / duration index + inject_Z (-1)).
    { field. lra. }
    rewrite H, Qfloor_add_Z. lia.
  - assert (H1 : (to - time) / duration index < 1).
    { apply Qlt_shift_div_r; [done|]. lra. }
    pose proof (Qfloor_le ((to - time) / duration index)) as Hfl.
    assert (Hlt : inject_Z (Qfloor ((to - time) / duration index)) < inject_Z 1).
    { eapply Qle_lt_trans; [exact Hfl|exact H1]. }
    rewrite <- Zlt_Qlt in Hlt.
    replace (Qfloor ((to - time) / duration index)) with 0%Z by lia. done.
Qed.

Lemma loop_rounds fuel time to segments :
  (rounds index time to ≤ fuel)%nat →
  getSegments_loop fuel repId index time to segments
  = Some (segments ++ segments_from (rounds index time to) repId index time).
Proof.
  revert time segments. induction fuel as [|fuel IH]; intros time segments Hfuel.
  - destruct (decide (time <= to)) as [Hle|Hgt].
    + rewrite (rounds_step _ _ Hle) in Hfuel. lia.
    + rewrite getSegments_loop_done by done.
      unfold rounds. rewrite decide_False by done. simpl. by rewrite app_nil_r.
  - destruct (decide (time <= to)) as [Hle|Hgt].
    + rewrite getSegments_loop_step by done.
      rewrite (rounds_step _ _ Hle) in *.
      rewrite IH by lia. simpl. by rewrite <- app_assoc.
    + rewrite getSegments_loop_done by done.
      unfold rounds. rewrite decide_False by done. simpl. by rewrite app_nil_r.
Qed.

Lemma segments_from_length n time : length (segments_from n repId index time) = n.
Proof. revert time. induction n; intros time; simpl; [done|]. by rewrite IHn. Qed.

Lemma segments_from_lookup n time k segment :
  segments_from n repId index time !! k = Some segment →
  Segment.number segment = (first_number index time + Z.of_nat k)%Z
  ∧ Segment.time segment == inject_Z (Segment.number segment) * duration index
  ∧ Segment.id segment = repId +:+ "_" +:+ pretty (Segment.number segment).
Proof.
  revert time k. induction n as [|n IH]; intros time k; [done|].
  destruct k as [|k]; cbn [segments_from lookup list_lookup].
  - intros [= <-]. unfold segment_at, first_number.
    cbn [Segment.number Segment.time Segment.id]. split; [lia|]. by split.
  - intros [Hn Hrest]%IH. rewrite first_number_step in Hn. split; [lia|done].
Qed.


End template_loop.


(** The loop at its bounds: a range with [to < up] gives no segment,
    whatever the duration; with a duration of zero or less and [up <= to]
    the loop never ends, no number of rounds gives a result. *)
Theorem getSegments_loop_bounds (repId : string) (index : TemplateIndex.Index)
    (up to : Q) :
  (to < up →
   ∀ fuel, TemplateIndex.getSegments_loop fuel repId index up to [] = Some [])
  ∧ (up <= to → TemplateIndex.duration index <= 0 →
     ∀ fuel, TemplateIndex.getSegments_loop fuel repId index up to [] = None).
Proof.
  split.
  - intros Hlt fuel. apply IndexFacts.getSegments_loop_done. lra.
  - intros Hle Hd fuel. generalize (@nil Segment.t). revert up Hle.
    induction fuel as [|fuel IH]; intros up Hle segments; simpl.
    + by rewrite decide_True.
    + rewrite decide_True by done. apply IH. lra.
Qed.

Lemma getSegments_loop_bounds_witness :
  TemplateIndex.getSegments_loop 7 "v" (TemplateIndex.mkIndex 0 None 1 "m") 0 10 []
  = None.
Proof.
  apply (proj2 (getSegments_loop_bounds "v" (TemplateIndex.mkIndex 0 None 1 "m") 0 10));
    discriminate.
Defined.

(** *** Adding segments to a base index *)

Lemma addSegmentInfos_step (index : BaseIndex.Index) (segmentInfos : SegmentInfos.t) :
  ∃ element,
    (BaseIndex._addSegmentInfos index segmentInfos).1
    = BaseIndex.mkIndex (BaseIndex.timescale index)
                        (BaseIndex.timeline index ++ [element])
    ∧ TimelineElement.r element = SegmentInfos.count segmentInfos
    ∧ TimelineElement.range element = SegmentInfos.range segmentInfos.
Proof.
  unfold BaseIndex._addSegmentInfos.
  destruct (decide _); eexists; (split; [reflexivity|by split]).
Qed.



(** Calls in a row only ever append: the timescale of the index and the
    elements it had stay as they were, and each call adds one element,
    carrying the repeat count and the range of its metadata, in the
    order of the calls. *)
Theorem addAll_appends (index : BaseIndex.Index) (infos : list SegmentInfos.t) :
  ∃ added,
    BaseIndexMore.addAll index infos
    = BaseIndex.mkIndex (BaseIndex.timescale index)
                        (BaseIndex.timeline index ++ added)
    ∧ TimelineElement.r <$> added = SegmentInfos.count <$> infos
    ∧ TimelineElement.range <$> added = SegmentInfos.range <$> infos.
Proof.
  revert index. induction infos as [|segmentInfos infos IH]; intros index.
  - exists []. rewrite app_nil_r. by destruct index.
  - unfold BaseIndexMore.addAll. cbn [foldl].
    destruct (addSegmentInfos_step index segmentInfos) as (element & -> & Hr & Hrange).
    destruct (IH (BaseIndex.mkIndex (BaseIndex.timescale index)
                    (BaseIndex.timeline index ++ [element])))
      as (added & Hadd & Hrs & Hranges).
    unfold BaseIndexMore.addAll in Hadd. rewrite Hadd.
    exists (element :: added). cbn [BaseIndex.timescale BaseIndex.timeline].
    rewrite <- app_assoc. split; [done|].
    rewrite !fmap_cons. by rewrite Hr, Hrange, Hrs, Hranges.
Qed.

End IndexMore.

(** ** More about the native text track source buffer *)

Module NativeTextTrackMore.
Import NativeTextTrack NativeTextTrackPlatform.
Open Scope Q_scope.

Section with_platform.
Context {Ranges : Type}.
Variable buffered_insert : Ranges → Q → Q → Ranges.
Variable buffered_remove : Ranges → Q → Bound → Ranges.
Variable parseTextTrackToCues : string → string → string → list TextTrackCue.t.
Variable addCue : list TextTrackCue.t → TextTrackCue.t → list TextTrackCue.t.
Variable removeCue : list TextTrackCue.t → TextTrackCue.t → list TextTrackCue.t.
Hypothesis removeCue_removes : removes_by_address removeCue.

Abbreviation remove := (_remove buffered_remove removeCue).
Abbreviation append :=
  (_append buffered_insert buffered_remove parseTextTrackToCues addCue removeCue).

Lemma filter_all {A} (P : A → Prop) `{!∀ x, Decision (P x)} (l : list A) :
  Forall P l → filter P l = l.
Proof.
  induction 1 as [|x l Hx Hl IH]; [done|].
  by rewrite filter_cons_True, IH.
Qed.

Lemma distinct_cues_remove_at (cues : list TextTrackCue.t) i cue :
  distinct_cues cues → cues !! i = Some cue →
  removeCue cues cue = take i cues ++ drop (S i) cues.
Proof.
  intros Hnd Hi. rewrite removeCue_removes.
  rewrite <- (take_drop_middle cues i cue Hi) at 1.
  unfold distinct_cues in Hnd.
  rewrite <- (take_drop_middle cues i cue Hi) in Hnd.
  rewrite fmap_app, fmap_cons in Hnd.
  apply NoDup_app in Hnd as (_ & Hpre & Hpost).
  apply NoDup_cons in Hpost as [Hpost _].
  rewrite filter_app, filter_cons_False by (intros H; by apply H).
  f_equal.
  - apply filter_all. apply Forall_forall. intros c Hc Heq.
    apply (Hpre (TextTrackCue.addr c)).
    + by apply list_elem_of_fmap_2.
    + rewrite Heq. by left.
  - apply filter_all. apply Forall_forall. intros c Hc Heq.
    apply Hpost. rewrite <- Heq. by apply list_elem_of_fmap_2.
Qed.

Lemma distinct_cues_delete (cues : list TextTrackCue.t) i :
  distinct_cues cues → distinct_cues (take i cues ++ drop (S i) cues).
Proof.
  unfold distinct_cues. intros Hnd.
  rewrite <- delete_take_drop, list_fmap_delete.
  eapply sublist_NoDup; [exact Hnd|]. apply sublist_delete.
Qed.

(** The loop of [_remove] over the first [n] cues. *)
Lemma remove_from_filter n cues from to :
  distinct_cues cues → (n ≤ length cues)%nat →
  remove_from removeCue n cues from to
  = filter (λ c, in_range from to c = false) (take n cues) ++ drop n cues.
Proof.
  revert cues. induction n as [|n IH]; intros cues Hnd Hn.
  - by rewrite take_0, drop_0.
  - cbn [remove_from].
    destruct (lookup_lt_is_Some_2 cues n ltac:(lia)) as [cue Hcue].
    rewrite Hcue, (take_S_r _ _ cue), filter_app by done.
    fold (in_range from to cue).
    destruct (in_range from to cue) eqn:Hin.
    + rewrite (distinct_cues_remove_at cues n cue) by done.
      rewrite IH.
      * rewrite take_app_length', drop_app_length' by (rewrite length_take; lia).
        rewrite filter_cons_False, filter_nil by (rewrite Hin; done).
        by rewrite app_nil_r.
      * by apply distinct_cues_delete.
      * rewrite length_app, length_take, length_drop. lia.
    + rewrite IH by (done || lia).
      rewrite filter_cons_True, filter_nil by done.
      rewrite <- app_assoc. simpl. by rewrite (drop_S _ cue).
Qed.

Lemma in_range_to_infinity from (cues : list TextTrackCue.t) :
  filter (λ c, in_range from PlusInfinity c = false) cues
  = filter (λ c, TextTrackCue.startTime c < from) cues.
Proof.
  apply list_filter_iff. intros c.
  unfold in_range, le_bound. rewrite !andb_true_r, bool_decide_eq_false.
  split; intros H; [|lra].
  destruct (Qlt_le_dec (TextTrackCue.startTime c) from); [done|by destruct H].
Qed.

Lemma remove_track_cues (this : State) (from : Q) (to : Bound) :
  distinct_cues (track_cues this) →
  track_cues (remove this from to)
  = filter (λ c, in_range from to c = false) (track_cues this).
Proof.
  intros Hnd. unfold _remove. cbn [track_cues].
  rewrite remove_from_filter by done.
  by rewrite firstn_all, drop_all, app_nil_r.
Qed.

(** [_remove(from, to)] takes off the track exactly the cues with
    [from <= startTime <= to] and [endTime <= to]; the others stay, in
    their order.  With [to = +Infinity] these are the cues that start at
    [from] or later.  (The cues of the track are distinct objects, and
    [removeCue] removes the object it is given.) *)
Theorem remove_filters (this : State) (from : Q) (to : Bound) :
  distinct_cues (track_cues this) →
  remove this from to
  = mkState (filter (λ c, in_range from to c = false) (track_cues this))
            (buffered_remove (buffered this) from to)
  ∧ track_cues (remove this from PlusInfinity)
    = filter (λ c, TextTrackCue.startTime c < from) (track_cues this).
Proof.
  intros Hnd. split.
  - pose proof (remove_track_cues this from to Hnd) as H.
    unfold _remove in *. cbn [track_cues] in H. by rewrite H.
  - by rewrite remove_track_cues, in_range_to_infinity.
Qed.

(** [_append] with a valid range and at least one parsed cue, the first
    of which starts before the last cue of the track: the cues of the track
    that start at the first new cue or later are taken off before the new
    ones are added.  Otherwise the cues of the track all stay. *)
Theorem append_rewinds (this : State) (data : AppendData.t)
    (firstCue : TextTrackCue.t) (others : list TextTrackCue.t) :
  distinct_cues (track_cues this) →
  invalid_range data = false →
  parseTextTrackToCues (AppendData.type data) (AppendData.data data)
                       (AppendData.language data) = firstCue :: others →
  track_cues (append this data).1
  = foldl addCue
      (if rewinds (track_cues this) firstCue
       then filter (λ c, TextTrackCue.startTime c < TextTrackCue.startTime firstCue)
                   (track_cues this)
       else track_cues this)
      (firstCue :: others)
  ∧ (append this data).2 = [].
Proof.
  intros Hnd Hvalid Hparse. unfold _append. rewrite Hvalid, Hparse.
  cbn [fst snd track_cues]. split; [|done]. f_equal. unfold rewinds.
  destruct (last (track_cues this)) as [lastCue|] eqn:Hlast; [|done].
  destruct (decide (TextTrackCue.startTime firstCue
                    < TextTrackCue.startTime lastCue)) as [Hlt|Hge].
  - rewrite bool_decide_eq_true_2 by done.
    by rewrite remove_track_cues, in_range_to_infinity.
  - by rewrite bool_decide_eq_false_2.
Qed.

End with_platform.

Lemma remove_filters_witness :
  track_cues
    (_remove example_remove example_removeCue
       (mkState [TextTrackCue.mk 1 0 2; TextTrackCue.mk 2 2 4; TextTrackCue.mk 3 4 9]
                [(0, 9)])
       2 (Finite 5))
  = [TextTrackCue.mk 1 0 2; TextTrackCue.mk 3 4 9].
Proof.
  destruct (remove_filters example_remove example_removeCue (λ _ _, eq_refl)
              (mkState [TextTrackCue.mk 1 0 2; TextTrackCue.mk 2 2 4;
                        TextTrackCue.mk 3 4 9] [(0, 9)]) 2 (Finite 5))
    as [-> _]; [|reflexivity].
  unfold distinct_cues. apply (bool_decide_unpack _). vm_compute. exact I.
Defined.

Lemma append_rewinds_witness :
  track_cues
    (example_append
       (mkState [TextTrackCue.mk 6 (-3) (-1); TextTrackCue.mk 8 5 6] [(-3, 6)])
       (AppendData.mk 1 0 (Some 2) "" "vtt" "en")).1
  = [TextTrackCue.mk 6 (-3) (-1); TextTrackCue.mk 1 0 2].
Proof.
  unfold example_append.
  destruct (append_rewinds example_insert example_remove example_parse
              example_addCue example_removeCue (λ _ _, eq_refl)
              (mkState [TextTrackCue.mk 6 (-3) (-1); TextTrackCue.mk 8 5 6]
                       [(-3, 6)])
              (AppendData.mk 1 0 (Some 2) "" "vtt" "en")
              (TextTrackCue.mk 1 0 2) [])
    as [-> _]; [|reflexivity|reflexivity|reflexivity].
  unfold distinct_cues. apply (bool_decide_unpack _). vm_compute. exact I.
Defined.

End NativeTextTrackMore.
